(** * WaveformScrubber: a model of [src/components/WaveformScrubber.tsx]

    The component is a React function component.  Its arithmetic is done on
    JavaScript numbers, its interaction logic is a handful of event handlers
    that read the state of the current render and queue state updates and
    [onSeek] calls, and its drawing code picks one fill style per bar.

    Numbers are modelled as extended reals: the special values [NaN],
    [Infinity] and [-Infinity] are kept, with the rules ECMAScript gives
    them (division by zero, [Math.max] of a [NaN], ...), and finite values
    are exact reals.  Rounding of IEEE doubles and the sign of zero are not
    modelled.

    Events are delivered one at a time, and the component has rendered
    again, and run its effects, before the next one is delivered.
    [Math.random] is the sequence of the values its calls return. *)

From Stdlib Require Import Reals Lra Lia ZArith List Bool String Ascii.
From Stdlib Require Import DecimalString.
Import ListNotations.

Open Scope R_scope.

(** ** JavaScript numbers *)

Module JS.

Inductive number : Type :=
| NaN
| PInf
| NInf
| Fin (r : R).

Definition Rltb (a b : R) : bool := if Rlt_dec a b then true else false.
Definition Rleb (a b : R) : bool := if Rle_dec a b then true else false.
Definition Reqb (a b : R) : bool := if Req_dec_T a b then true else false.

(** The infinity of a given sign ([true] is negative). *)
Definition inf (negative : bool) : number := if negative then NInf else PInf.

Definition neg (a : number) : number :=
  match a with
  | NaN => NaN
  | PInf => NInf
  | NInf => PInf
  | Fin x => Fin (- x)
  end.

Definition add (a b : number) : number :=
  match a, b with
  | NaN, _ | _, NaN => NaN
  | PInf, NInf | NInf, PInf => NaN
  | PInf, _ | _, PInf => PInf
  | NInf, _ | _, NInf => NInf
  | Fin x, Fin y => Fin (x + y)
  end.

Definition sub (a b : number) : number := add a (neg b).

(** An infinity times a finite value: [NaN] for zero, else the sign rule. *)
Definition inf_times (negative : bool) (x : R) : number :=
  if Reqb x 0 then NaN else inf (xorb negative (Rltb x 0)).

Definition mul (a b : number) : number :=
  match a, b with
  | NaN, _ | _, NaN => NaN
  | PInf, PInf | NInf, NInf => PInf
  | PInf, NInf | NInf, PInf => NInf
  | PInf, Fin x | Fin x, PInf => inf_times false x
  | NInf, Fin x | Fin x, NInf => inf_times true x
  | Fin x, Fin y => Fin (x * y)
  end.

(** Division.  A finite non-zero value over zero is an infinity of the sign
    of the dividend (the divisor is taken as [+0]), and [0 / 0] is [NaN]. *)
Definition div (a b : number) : number :=
  match a, b with
  | NaN, _ | _, NaN => NaN
  | (PInf | NInf), (PInf | NInf) => NaN
  | PInf, Fin y => inf (Rltb y 0)
  | NInf, Fin y => inf (negb (Rltb y 0))
  | Fin _, (PInf | NInf) => Fin 0
  | Fin x, Fin y =>
      if Reqb y 0
      then (if Reqb x 0 then NaN else inf (Rltb x 0))
      else Fin (x / y)
  end.

(** Rounding towards zero, for the remainder. *)
Definition Ztrunc (x : R) : Z :=
  if Rltb x 0 then (- Zfloor (- x))%Z else Zfloor x.

(** The [%] operator: the result has the sign of the dividend. *)
Definition rem (n d : number) : number :=
  match n, d with
  | NaN, _ | _, NaN => NaN
  | (PInf | NInf), _ => NaN
  | Fin x, (PInf | NInf) => Fin x
  | Fin x, Fin y =>
      if Reqb y 0 then NaN else Fin (x - y * IZR (Ztrunc (x / y)))
  end.

(** Comparisons: any comparison with [NaN] is false. *)
Definition lt (a b : number) : bool :=
  match a, b with
  | NaN, _ | _, NaN => false
  | _, NInf => false
  | PInf, _ => false
  | NInf, _ => true
  | _, PInf => true
  | Fin x, Fin y => Rltb x y
  end.

Definition le (a b : number) : bool :=
  match a, b with
  | NaN, _ | _, NaN => false
  | NInf, _ => true
  | _, PInf => true
  | PInf, _ => false
  | _, NInf => false
  | Fin x, Fin y => Rleb x y
  end.

Definition gt (a b : number) : bool := lt b a.
Definition ge (a b : number) : bool := le b a.

(** [Math.max] and [Math.min] of two arguments: [NaN] is contagious. *)
Definition Math_max (a b : number) : number :=
  match a, b with
  | NaN, _ | _, NaN => NaN
  | _, _ => if lt a b then b else a
  end.

Definition Math_min (a b : number) : number :=
  match a, b with
  | NaN, _ | _, NaN => NaN
  | _, _ => if lt b a then b else a
  end.

Definition Math_abs (a : number) : number :=
  match a with
  | NaN => NaN
  | PInf | NInf => PInf
  | Fin x => Fin (Rabs x)
  end.

Definition Math_floor (a : number) : number :=
  match a with
  | Fin x => Fin (IZR (Zfloor x))
  | _ => a
  end.

Definition Math_sin (a : number) : number :=
  match a with
  | Fin x => Fin (sin x)
  | _ => NaN
  end.

Definition Math_PI : number := Fin PI.

(** [isNaN] and the truthiness of a number ([0] and [NaN] are falsy). *)
Definition isNaN (a : number) : bool :=
  match a with NaN => true | _ => false end.

Definition ToBoolean (a : number) : bool :=
  match a with
  | NaN => false
  | Fin x => negb (Reqb x 0)
  | _ => true
  end.

(** Decimal digits of an integer, as [Number.prototype.toString] prints
    them. *)
Definition Z_toString (z : Z) : string := NilZero.string_of_int (Z.to_int z).

(** [Number.prototype.toString] (radix 10).  Integral values below [10^21]
    in magnitude print as their digits.  The other finite values (fractions,
    which print the shortest digits that read back as the same double, and
    the exponent notation from [10^21] on) depend on the binary
    representation and are outside this model: [None]. *)
Definition Number_toString (a : number) : option string :=
  match a with
  | NaN => Some "NaN"%string
  | PInf => Some "Infinity"%string
  | NInf => Some "-Infinity"%string
  | Fin x =>
      let z := Zfloor x in
      if Reqb x (IZR z) && (Z.abs z <? 10 ^ 21)%Z
      then Some (Z_toString z)
      else None
  end.

(** [String.prototype.padStart] with a one-character filler. *)
Definition padStart (targetLength : nat) (fill : ascii) (s : string) : string :=
  (string_of_list_ascii (repeat fill (targetLength - String.length s)) ++ s)%string.

End JS.

Declare Scope js_scope.
Delimit Scope js_scope with js.
Bind Scope js_scope with JS.number.
Notation "a + b" := (JS.add a b) : js_scope.
Notation "a - b" := (JS.sub a b) : js_scope.
Notation "a * b" := (JS.mul a b) : js_scope.
Notation "a / b" := (JS.div a b) : js_scope.
Notation "a 'mod' b" := (JS.rem a b) : js_scope.
Notation "a <? b" := (JS.lt a b) : js_scope.
Notation "a <=? b" := (JS.le a b) : js_scope.
Notation "a >? b" := (JS.gt a b) : js_scope.
Notation "a >=? b" := (JS.ge a b) : js_scope.

Import JS.

(** A numeric literal of the source. *)
Coercion Fin : R >-> number.

(** ** The component's data *)

(** The props read by the handlers and by the drawing code.  [onSeek] is
    the callback whose calls are recorded as effects below; [audioData] and
    [isPlaying] are read by neither. *)
Record Props : Type := {
  currentTime : number;
  duration : number
}.

(** [container.getBoundingClientRect()], the two fields that are read. *)
Record DOMRect : Type := {
  left : number;
  width : number
}.

(** The [useState] cells of the interaction. *)
Record State : Type := {
  isDragging : bool;
  isHovering : bool;
  hoverTime : number;
  previewTime : number
}.

Definition initialState : State :=
  {| isDragging := false; isHovering := false;
     hoverTime := Fin 0; previewTime := Fin (-1) |}.

(** What a handler does while it runs: it queues state updates and calls
    [onSeek].  A handler reads the state of the render it was created in, so
    it is a function from that state to the list of its effects, in order. *)
Inductive Effect : Type :=
| setIsDragging (b : bool)
| setIsHovering (b : bool)
| setHoverTime (t : number)
| setPreviewTime (t : number)
| onSeek (time : number).

(** ** The event handlers *)

Section Handlers.

Variable P : Props.
Variable st : State.
(** [containerRef.current], measured when the handler runs. *)
Variable container : option DOMRect.

Definition handleSeek (clientX : number) : list Effect :=
  match container with
  | None => []
  | Some rect =>
      let x := (clientX - left rect)%js in
      let progress := Math_max 0 (Math_min 1 (x / width rect)%js) in
      let seekTime := (progress * duration P)%js in
      [onSeek seekTime]
  end.

Definition handleInteractionStart (clientX : number) : list Effect :=
  setIsDragging true :: handleSeek clientX.

Definition handleInteractionMove (clientX : number) : list Effect :=
  if isDragging st then handleSeek clientX else [].

Definition handleMouseMove (clientX : number) : list Effect :=
  if negb (isDragging st) && isHovering st then
    match container with
    | None => []
    | Some rect =>
        let x := (clientX - left rect)%js in
        let progress := Math_max 0 (Math_min 1 (x / width rect)%js) in
        let time := (progress * duration P)%js in
        [setPreviewTime time; setHoverTime time]
    end
  else [].

(** [e.preventDefault()] has no effect on the state or on [onSeek]. *)
Definition handleMouseDown (clientX : number) : list Effect :=
  handleInteractionStart clientX.

(** The argument is [e.touches[0].clientX]. *)
Definition handleTouchStart (clientX : number) : list Effect :=
  handleInteractionStart clientX.

Definition handleGlobalMouseMove (clientX : number) : list Effect :=
  handleInteractionMove clientX.

Definition handleTouchMove (clientX : number) : list Effect :=
  handleInteractionMove clientX.

Definition handleEnd : list Effect :=
  [setIsDragging false; setPreviewTime (Fin (-1))].

(** The inline [onMouseEnter] and [onMouseLeave] props of the container. *)
Definition onMouseEnter : list Effect := [setIsHovering true].

Definition onMouseLeave : list Effect :=
  [setIsHovering false; setPreviewTime (Fin (-1))].

(** The effect that depends on [isDragging] and [duration] adds the four
    document listeners when [isDragging] holds and removes them otherwise.
    The listeners are the handlers of the render in which the effect ran:
    they read the [isDragging] and the [duration] of that render, which are
    the current ones because the effect runs again when either changes, and
    the container through [containerRef]. *)
Definition documentListeners : bool := isDragging st.

End Handlers.

(** ** Events and their dispatch *)

(** The DOM events the component reacts to.  A [mousemove] inside the
    container reaches the container's [onMouseMove] and then the document;
    one outside reaches the document only.  [mousedown] and [touchstart] are
    those on the container; the touch events carry the [clientX] of the
    first touch. *)
Inductive Event : Type :=
| mouseenter
| mouseleave
| mousemove (overContainer : bool) (clientX : number)
| mousedown (clientX : number)
| touchstart (clientX : number)
| touchmove (clientX : number)
| mouseup
| touchend.

(** An event together with the props and the container measure at the time
    it is delivered. *)
Record Input : Type := {
  props : Props;
  container : option DOMRect;
  event : Event
}.

Definition dispatch (st : State) (i : Input) : list Effect :=
  let P := props i in
  let c := container i in
  match event i with
  | mouseenter => onMouseEnter
  | mouseleave => onMouseLeave
  | mousemove over clientX =>
      (if over then handleMouseMove P st c clientX else [])
      ++ (if documentListeners st then handleGlobalMouseMove P st c clientX else [])
  | mousedown clientX => handleMouseDown P c clientX
  | touchstart clientX => handleTouchStart P c clientX
  | touchmove clientX =>
      if documentListeners st then handleTouchMove P st c clientX else []
  | mouseup => if documentListeners st then handleEnd else []
  | touchend => if documentListeners st then handleEnd else []
  end.

(** The queued updates are applied in order when the component renders
    again; an [onSeek] call leaves the state alone. *)
Definition update (st : State) (e : Effect) : State :=
  match e with
  | setIsDragging b =>
      {| isDragging := b; isHovering := isHovering st;
         hoverTime := hoverTime st; previewTime := previewTime st |}
  | setIsHovering b =>
      {| isDragging := isDragging st; isHovering := b;
         hoverTime := hoverTime st; previewTime := previewTime st |}
  | setHoverTime t =>
      {| isDragging := isDragging st; isHovering := isHovering st;
         hoverTime := t; previewTime := previewTime st |}
  | setPreviewTime t =>
      {| isDragging := isDragging st; isHovering := isHovering st;
         hoverTime := hoverTime st; previewTime := t |}
  | onSeek _ => st
  end.

Definition commit (st : State) (effects : list Effect) : State :=
  fold_left update effects st.

(** The arguments of the [onSeek] calls among the effects, in order. *)
Definition seeks (effects : list Effect) : list number :=
  flat_map (fun e => match e with onSeek t => [t] | _ => [] end) effects.

(** One event: the handlers run against the current render, then the
    component renders again with the updates applied. *)
Definition step (st : State) (i : Input) : State * list number :=
  let effects := dispatch st i in
  (commit st effects, seeks effects).

(** A sequence of events, each delivered after the render caused by the
    previous one; the [onSeek] calls are collected in order. *)
Fixpoint run (st : State) (inputs : list Input) : State * list number :=
  match inputs with
  | [] => (st, [])
  | i :: rest =>
      let '(st1, out1) := step st i in
      let '(st2, out2) := run st1 rest in
      (st2, out1 ++ out2)
  end.

(** The phases of the spec's InteractionController, read off the two
    flags. *)
Inductive Phase : Type := Idle | Hovering | Dragging.

Definition phase (st : State) : Phase :=
  if isDragging st then Dragging
  else if isHovering st then Hovering
  else Idle.

(** ** Drawing: the fill style of each bar *)

(** The three values [fillStyle] takes in [drawWaveform]:
    ['rgba(255, 255, 255, 0.25)'], ['rgba(120, 75, 160, 0.7)'] and
    [`rgba(255, 60, 172, ${playedIntensity})`]. *)
Inductive FillStyle : Type :=
| unplayed
| hoverPreview
| played (playedIntensity : number).

Section Draw.

Variable P : Props.
Variable st : State.

Definition progress : number :=
  if (duration P >? Fin 0)%js then (currentTime P / duration P)%js else Fin 0.

Definition hoverProgress : number :=
  if (duration P >? Fin 0)%js && (previewTime st >=? Fin 0)%js
  then (previewTime st / duration P)%js
  else Fin (-1).

(** The body of [waveformData.forEach], for the bar [index] out of
    [waveformData.length]. *)
Definition barFillStyle (dataLength index : nat) : FillStyle :=
  let barPosition := (Fin (INR index) / Fin (INR dataLength))%js in
  if (hoverProgress >=? Fin 0)%js && (barPosition <=? hoverProgress)%js
     && (barPosition >? progress)%js
  then hoverPreview
  else if (barPosition <=? progress)%js then
    let playedIntensity :=
      Math_min 1 ((progress - barPosition) * Fin 10 + Fin 0.6)%js in
    played playedIntensity
  else unplayed.

(** The fill styles of the bars [drawWaveform] draws, in order (none when
    [waveformData] is empty: the function returns before drawing). *)
Definition drawWaveform (waveformData : list number) : list FillStyle :=
  map (barFillStyle (List.length waveformData))
      (seq 0 (List.length waveformData)).

End Draw.

(** ** [formatTime] *)

(** The result is [None] only where [Number_toString] is.  The quotient and
    the remainder by 60 are the exact ones; those of the source, on
    doubles, have the same floors for times below [2^53]. *)
Definition formatTime (seconds : number) : option string :=
  if negb (ToBoolean seconds) || isNaN seconds then Some "0:00"%string
  else
    let mins := Math_floor (seconds / Fin 60)%js in
    let secs := Math_floor (seconds mod Fin 60)%js in
    match Number_toString mins, Number_toString secs with
    | Some m, Some s => Some (m ++ ":" ++ padStart 2 "0" s)%string
    | _, _ => None
    end.

(** ** [generateWaveform] *)

(** [Math.random] is modelled by the sequence [rng] of the values its
    successive calls return; a computation that calls it threads the number
    of calls made so far. *)
Definition Rand (A : Type) : Type := nat -> A * nat.

Definition ret {A : Type} (a : A) : Rand A := fun k => (a, k).

Definition bind {A B : Type} (m : Rand A) (f : A -> Rand B) : Rand B :=
  fun k => let '(a, k1) := m k in f a k1.

Notation "x <- m ;; f" := (bind m (fun x => f))
  (at level 61, m at next level, right associativity).

Section Generate.

Variable rng : nat -> R.

Definition Math_random : Rand number := fun k => (Fin (rng k), S k).

(** The body of the [for] loop for the bar [i] out of [bars]: the
    amplitude that is pushed. *)
Definition bar (bars i : Z) : Rand number :=
  let position := (Fin (IZR i) / Fin (IZR bars))%js in
  let wave1 := (Math_sin (position * Math_PI * Fin 8) * Fin 0.4)%js in
  let wave2 := (Math_sin (position * Math_PI * Fin 16) * Fin 0.2)%js in
  let wave3 := (Math_sin (position * Math_PI * Fin 32) * Fin 0.1)%js in
  r1 <- Math_random ;;
  let noise := ((r1 - Fin 0.5) * Fin 0.3)%js in
  let envelope := (Math_sin (position * Math_PI * Fin 4) * Fin 0.5 + Fin 0.5)%js in
  let amplitude := ((wave1 + wave2 + wave3 + noise) * envelope)%js in
  r2 <- Math_random ;;
  amplitude <- (if (r2 <? Fin 0.05)%js
                then r3 <- Math_random ;; ret (amplitude + r3 * Fin 0.4)%js
                else ret amplitude) ;;
  ret (Math_max 0.1 (Math_min 1.0 (Math_abs amplitude + Fin 0.3)%js)).

(** [for (let i = ...; i < bars; i++) { ...; data.push(amplitude) }], with
    [n] the number of iterations left. *)
Fixpoint loop (bars : Z) (n : nat) (i : Z) (data : list number)
  : Rand (list number) :=
  match n with
  | O => ret data
  | S n' =>
      amplitude <- bar bars i ;;
      loop bars n' (i + 1)%Z (data ++ [amplitude])
  end.

(** The function with its constant [bars] as a parameter: [i < bars]
    holds for the first [Z.to_nat bars] values of [i] from 0. *)
Definition generate (barCount : Z) : Rand (list number) :=
  loop barCount (Z.to_nat barCount) 0%Z [].

(** The source: [const bars = 150], and the data passed to
    [setWaveformData]. *)
Definition generateWaveform : Rand (list number) := generate 150.

End Generate.

(** ** The loop body on finite numbers *)

(** [wave1 + wave2 + wave3] and [envelope] at [position = i / bars]. *)
Definition waves (bars i : Z) : R :=
  let position := IZR i / IZR bars in
  sin (position * PI * 8) * 0.4 + sin (position * PI * 16) * 0.2
  + sin (position * PI * 32) * 0.1.

Definition envelope (bars i : Z) : R :=
  let position := IZR i / IZR bars in
  sin (position * PI * 4) * 0.5 + 0.5.

(** The noise made of the first draw, and the peak made of the second and
    third: the third is drawn, and added, only when the second is below
    0.05. *)
Definition noiseOf (r1 : R) : R := (r1 - 0.5) * 0.3.

Definition peakOf (r2 r3 : R) : R := if Rltb r2 0.05 then r3 * 0.4 else 0.

Definition drawsOf (r2 : R) : nat := if Rltb r2 0.05 then 3%nat else 2%nat.

(** The amplitude the loop body pushes, as a function of the noise and the
    peak: the envelope multiplies the sum, the peak is added, and the
    absolute value is taken of the result before 0.3 is added. *)
Definition amplitudeOf (bars i : Z) (noise peak : R) : number :=
  Math_max 0.1
    (Math_min 1.0
       (Fin (Rabs ((waves bars i + noise) * envelope bars i + peak) + 0.3))).

(** An amplitude of a waveform series. *)
Definition isAmplitude (a : number) : Prop :=
  exists v, a = Fin v /\ 0.1 <= v <= 1.

(** A sequence of draws: the first is 0, the second is 0 (a peak is
    taken), the third is 0.5, and so on with 0. *)
Definition exampleRng (k : nat) : R :=
  match k with
  | 2%nat => 0.5
  | _ => 0
  end.

(** ** The spec's CoordinateMapper and amplitude formula, in its words *)

Module Spec.

Definition clamp (v lo hi : number) : number :=
  if (v <? lo)%js then lo else if (v >? hi)%js then hi else v.

Definition pixelToTime (xPx widthPx duration : number) : number :=
  let progress := clamp (xPx / widthPx)%js 0 1 in
  (progress * duration)%js.

Definition progressOf (time duration : number) : number :=
  if (duration >? Fin 0)%js then clamp (time / duration)%js 0 1 else Fin 0.

(** The amplitude as the spec words it: the absolute value of the waves
    and the noise, times the envelope, plus 0.3, plus the peak. *)
Definition amplitude (barCount i : Z) (noise peak : R) : number :=
  clamp (Fin (Rabs (waves barCount i + noise) * envelope barCount i
              + 0.3 + peak)) 0.1 1.0.

End Spec.

(** ** Vocabulary of the interaction properties *)

Definition isPointerDown (e : Event) : bool :=
  match e with mousedown _ | touchstart _ => true | _ => false end.

Definition isPointerMove (e : Event) : bool :=
  match e with mousemove _ _ | touchmove _ => true | _ => false end.

Definition isPointerUp (e : Event) : bool :=
  match e with mouseup | touchend => true | _ => false end.

Definition isPointerLeave (e : Event) : bool :=
  match e with mouseleave => true | _ => false end.

(** The [clientX] a handler reads from a press or a move; the other events
    are read by no handler, and are given [NaN]. *)
Definition clientXOf (e : Event) : number :=
  match e with
  | mousemove _ x | mousedown x | touchstart x | touchmove x => x
  | _ => NaN
  end.

(** The time the spec gives for the pointer position of a press or a move
    over the container [rect]. *)
Definition pointerTime (P : Props) (rect : DOMRect) (e : Event) : number :=
  Spec.pixelToTime (clientXOf e - left rect)%js (width rect) (duration P).

(** An event delivered with props [P] over a measured container. *)
Definition measuredInput (P : Props) (rect : DOMRect) (e : Event) : Input :=
  {| props := P; container := Some rect; event := e |}.

Definition noPointerDown (inputs : list Input) : bool :=
  forallb (fun i => negb (isPointerDown (event i))) inputs.

Definition noPointerUp (inputs : list Input) : bool :=
  forallb (fun i => negb (isPointerUp (event i))) inputs.

(** [previewTime] is either the cleared value [-1], or the phase is not
    [Idle] and the value lies between 0 and the duration [d]. *)
Definition PreviewInv (d : R) (st : State) : Prop :=
  previewTime st <> Fin (-1) ->
  phase st <> Idle /\ exists t, previewTime st = Fin t /\ 0 <= t <= d.

(** The pointer position of an event is a finite number. *)
Definition finitePointer (e : Event) : Prop :=
  match e with
  | mousemove _ x | mousedown x | touchstart x | touchmove x =>
      exists r, x = Fin r
  | _ => True
  end.

(** The container, when it is mounted, has a finite left edge and a finite
    positive width. *)
Definition positiveWidth (c : option DOMRect) : Prop :=
  match c with
  | None => True
  | Some rect => exists l w, left rect = Fin l /\ width rect = Fin w /\ 0 < w
  end.

(** A player 50 seconds into a 200 second track, and a container 100
    pixels wide at the left of the page. *)
Definition exampleProps : Props := {| currentTime := Fin 50; duration := Fin 200 |}.
Definition exampleRect : DOMRect := {| left := Fin 0; width := Fin 100 |}.


(** ** Drawing: geometry, playhead and hover line *)

(** The arguments of the [ctx.fillRect] call of a bar. *)
Record BarRect : Type := {
  barX : number;
  barY : number;
  barW : number;
  barH : number
}.

(** The rectangle of the bar [index] of [dataLength] with the given
    amplitude, in a container [rectWidth] wide. *)
Definition barFillRect (rectWidth : number) (dataLength : nat)
           (amplitude : number) (index : nat) : BarRect :=
  let barWidth := (rectWidth / Fin (INR dataLength))%js in
  let centerY := Fin 40 in
  let maxBarHeight := Fin 35 in
  let x := (Fin (INR index) * barWidth)%js in
  let barHeight := (amplitude * maxBarHeight)%js in
  {| barX := x;
     barY := (centerY - barHeight / Fin 2)%js;
     barW := Math_max 1 (barWidth - Fin 1)%js;
     barH := barHeight |}.

(** The playhead: where the line and the circle are drawn, the line width
    and the radius of the circle. *)
Record Playhead : Type := {
  playheadX : number;
  lineWidth : number;
  radius : number
}.

(** The playhead step of [drawWaveform], which is reached past its early
    returns (see [drawOverlays]): [if (duration > 0) { ... }], no playhead
    without a duration. *)
Definition playhead (P : Props) (st : State) (rectWidth : number)
  : option Playhead :=
  if (duration P >? Fin 0)%js then
    Some {| playheadX := (progress P * rectWidth)%js;
            lineWidth := if isDragging st then Fin 3 else Fin 2;
            radius := if isDragging st then Fin 6 else Fin 4 |}
  else None.

(** The hover line step of [drawWaveform], reached past its early returns
    (see [drawOverlays]):
    [if (isHovering && previewTime >= 0 && duration > 0) { ... }], the
    [hoverX] of the dashed line, when it is drawn. *)
Definition hoverLine (P : Props) (st : State) (rectWidth : number)
  : option number :=
  if isHovering st && (previewTime st >=? Fin 0)%js && (duration P >? Fin 0)%js
  then Some ((previewTime st / duration P) * rectWidth)%js
  else None.

(** What a call of [drawWaveform] draws over the bars: the playhead and the
    hover line, each if any.  [None] when the function returns before
    drawing: [canvasRef.current] or [containerRef.current] is null or
    [waveformData] is empty (as on the first draw after mounting), or the
    canvas gives no 2D context. *)
Definition drawOverlays (P : Props) (st : State) (canvas : bool)
           (container : option DOMRect) (ctx : bool)
           (waveformData : list number)
  : option (option Playhead * option number) :=
  match container with
  | None => None
  | Some rect =>
      if negb canvas || (List.length waveformData =? 0)%nat then None
      else if negb ctx then None
      else Some (playhead P st (width rect), hoverLine P st (width rect))
  end.

(** The time preview tooltip of the returned markup: its [left], in per
    cent, and its label, when it is rendered. *)
Definition tooltip (P : Props) (st : State) : option (number * option string) :=
  if isHovering st && negb (isDragging st)
     && (previewTime st >=? Fin 0)%js && (duration P >? Fin 0)%js
  then Some (((previewTime st / duration P) * Fin 100)%js,
             formatTime (previewTime st))
  else None.

(** ** Vocabulary of the further properties *)

(** The events handled by the container's [onMouseMove]. *)
Definition isHoverMove (e : Event) : bool :=
  match e with mousemove true _ => true | _ => false end.

Definition noHoverMove (inputs : list Input) : bool :=
  forallb (fun i => negb (isHoverMove (event i))) inputs.

(** An input with the duration [d], a container of positive width when
    mounted, and a finite pointer position. *)
Definition goodInput (d : R) (i : Input) : Prop :=
  duration (props i) = Fin d /\ positiveWidth (container i)
  /\ finitePointer (event i).

(** A finite number between [lo] and [hi]. *)
Definition within (lo hi : R) (a : number) : Prop :=
  exists v, a = Fin v /\ lo <= v <= hi.

(** The flag a sequence of events leaves: [true] after an event that sets
    it, [false] after one that clears it. *)
Definition lastOf (sets clears : Event -> bool) (inputs : list Input)
           (initial : bool) : bool :=
  fold_left (fun b i => if sets (event i) then true
                        else if clears (event i) then false else b)
            inputs initial.

Definition isPointerEnter (e : Event) : bool :=
  match e with mouseenter => true | _ => false end.

Definition isPlayed (f : FillStyle) : bool :=
  match f with played _ => true | _ => false end.

(** * SearchBar: a model of [src/components/SearchBar.tsx]

    Strings are sequences of UTF-16 code units, as in JavaScript.
    [String.prototype.toLowerCase], which follows the Unicode case
    mappings, is a parameter of the model.  The speech hook is outside the
    file; what it does with the callback it is given is the event
    [voiceResult]. *)

Module SearchBar.

Definition str : Type := list N.

(** A string literal of the source (its characters are ASCII). *)
Definition lit (s : string) : str := map N_of_ascii (list_ascii_of_string s).

Definition str_eq_dec : forall a b : str, {a = b} + {a <> b} :=
  list_eq_dec N.eq_dec.

(** White space and line terminators of ECMAScript, which [trim] strips:
    TAB, LF, VT, FF, CR, SP, NBSP, U+1680, U+2000 to U+200A, LS, PS,
    U+202F, U+205F, U+3000 and U+FEFF. *)
Definition isWhiteSpace (c : N) : bool :=
  existsb (N.eqb c)
    [9; 10; 11; 12; 13; 32; 160; 5760; 8192; 8193; 8194; 8195; 8196; 8197;
     8198; 8199; 8200; 8201; 8202; 8232; 8233; 8239; 8287; 12288; 65279]%N.

Fixpoint trimStart (s : str) : str :=
  match s with
  | [] => []
  | c :: t => if isWhiteSpace c then trimStart t else s
  end.

Definition trimEnd (s : str) : str := rev (trimStart (rev s)).

Definition trim (s : str) : str := trimEnd (trimStart s).

(** The truthiness of a string: the empty string is falsy. *)
Definition nonEmpty (s : str) : bool :=
  match s with [] => false | _ :: _ => true end.

Fixpoint startsWith (s sub : str) : bool :=
  match sub, s with
  | [], _ => true
  | _ :: _, [] => false
  | c :: sub', d :: s' => N.eqb c d && startsWith s' sub'
  end.

(** [s.includes(sub)]. *)
Fixpoint includes (s sub : str) : bool :=
  startsWith s sub
  || match s with
     | [] => false
     | _ :: t => includes t sub
     end.

(** [s.split(' ')[0]]: the part before the first space. *)
Fixpoint firstWord (s : str) : str :=
  match s with
  | [] => []
  | c :: t => if N.eqb c 32 then [] else c :: firstWord t
  end.

(** [[...new Set(l)]]: the elements in the order of their first
    occurrence. *)
Definition setAdd (acc : list str) (x : str) : list str :=
  if in_dec str_eq_dec x acc then acc else acc ++ [x].

Definition uniq (l : list str) : list str := fold_left setAdd l [].

Definition musicKeywords : list str :=
  map lit ["songs"; "music"; "hits"; "best of"; "playlist"; "album"; "live";
           "acoustic"; "remix"; "cover"]%string.

Definition genres : list str :=
  map lit ["bollywood"; "pop"; "rock"; "classical"; "jazz"; "electronic";
           "hip hop"; "country"; "folk"; "blues"]%string.

Definition moods : list str :=
  map lit ["romantic"; "sad"; "happy"; "party"; "workout"; "relaxing";
           "energetic"; "chill"]%string.

Record State : Type := {
  query : str;
  suggestions : list str;
  showSuggestions : bool;
  selectedSuggestionIndex : Z
}.

Definition initialState : State :=
  {| query := []; suggestions := []; showSuggestions := false;
     selectedSuggestionIndex := (-1)%Z |}.

(** The state updates a handler queues, with a value or with an updater
    function, and its [onSearch] calls. *)
Inductive Effect : Type :=
| setQuery (q : str)
| setSuggestions (l : list str)
| setShowSuggestions (b : bool)
| setSelectedSuggestionIndex (i : Z)
| updateSelectedSuggestionIndex (f : Z -> Z)
| onSearch (q : str).

Inductive Key : Type := ArrowDown | ArrowUp | Enter | Escape | OtherKey.

Section Handlers.

Variable toLowerCase : str -> str.

(** The array [suggestions] of the function before duplicates are removed:
    the pushes, in order. *)
Definition pushed (input : str) : list str :=
  let lowerInput := toLowerCase input in
  [input]
  ++ flat_map (fun keyword =>
                 if negb (includes lowerInput keyword)
                 then [input ++ lit " " ++ keyword]
                 else [])
              musicKeywords
  ++ flat_map (fun genre =>
                 if includes lowerInput (firstWord genre)
                 then [input ++ lit " songs"; lit "best " ++ input ++ lit " hits"]
                 else [])
              genres
  ++ flat_map (fun mood =>
                 if includes lowerInput mood
                 then [input ++ lit " songs"; input ++ lit " playlist"]
                 else [])
              moods
  ++ (if (2 <? List.length input)%nat
      then [input ++ lit " all songs"; input ++ lit " greatest hits";
            input ++ lit " latest songs"; input ++ lit " top 10"]
      else []).

Definition generateSuggestions (input : str) : list str :=
  if negb (nonEmpty (trim input)) then []
  else firstn 8 (uniq (pushed input)).

Variable st : State.

Definition handleVoiceResult (transcript : str) : list Effect :=
  setQuery transcript
  :: (if nonEmpty (trim transcript) then [onSearch (trim transcript)] else []).

Definition handleInputChange (value : str) : list Effect :=
  let newSuggestions := generateSuggestions value in
  [setQuery value;
   setSuggestions newSuggestions;
   setShowSuggestions ((0 <? List.length value)%nat
                       && (0 <? List.length newSuggestions)%nat);
   setSelectedSuggestionIndex (-1)%Z].

(** [None] when [suggestions[selectedSuggestionIndex]] is [undefined], which
    the [Enter] branch would pass to [setQuery] and [onSearch]. *)
Definition handleKeyDown (key : Key) : option (list Effect) :=
  if negb (showSuggestions st) then Some []
  else
    match key with
    | ArrowDown =>
        Some [updateSelectedSuggestionIndex
                (fun prev =>
                   if (prev <? Z.of_nat (List.length (suggestions st)) - 1)%Z
                   then (prev + 1)%Z else prev)]
    | ArrowUp =>
        Some [updateSelectedSuggestionIndex
                (fun prev => if (prev >? 0)%Z then (prev - 1)%Z else (-1)%Z)]
    | Enter =>
        if (selectedSuggestionIndex st >=? 0)%Z then
          match nth_error (suggestions st)
                          (Z.to_nat (selectedSuggestionIndex st)) with
          | Some selectedSuggestion =>
              Some [setQuery selectedSuggestion;
                    setShowSuggestions false;
                    onSearch selectedSuggestion]
          | None => None
          end
        else if nonEmpty (trim (query st)) then
          Some [setShowSuggestions false; onSearch (trim (query st))]
        else Some []
    | Escape =>
        Some [setShowSuggestions false; setSelectedSuggestionIndex (-1)%Z]
    | OtherKey => Some []
    end.

Definition handleSuggestionClick (suggestion : str) : list Effect :=
  [setQuery suggestion; setShowSuggestions false; onSearch suggestion].

Definition handleSubmit : list Effect :=
  let searchQuery := trim (query st) in
  if nonEmpty searchQuery
  then [setShowSuggestions false; onSearch searchQuery]
  else [].

(** The inline [onFocus] of the input, and the callback the inline
    [onBlur] schedules. *)
Definition onFocus : list Effect :=
  if (0 <? List.length (query st))%nat
     && (0 <? List.length (suggestions st))%nat
  then [setShowSuggestions true] else [].

Definition onBlurTimeout : list Effect := [setShowSuggestions false].

(** The events of the component.  [click index] is a click on the
    suggestion button of that index, which exists while the dropdown is
    rendered ([showSuggestions && suggestions.length > 0]). *)
Inductive Event : Type :=
| change (value : str)
| keydown (key : Key)
| click (index : nat)
| submit
| focus
| blurTimeout
| voiceResult (transcript : str).

Definition dispatch (e : Event) : option (list Effect) :=
  match e with
  | change value => Some (handleInputChange value)
  | keydown key => handleKeyDown key
  | click index =>
      if showSuggestions st && (0 <? List.length (suggestions st))%nat then
        match nth_error (suggestions st) index with
        | Some suggestion => Some (handleSuggestionClick suggestion)
        | None => Some []
        end
      else Some []
  | submit => Some handleSubmit
  | focus => Some onFocus
  | blurTimeout => Some onBlurTimeout
  | voiceResult transcript => Some (handleVoiceResult transcript)
  end.

End Handlers.

Definition update (st : State) (e : Effect) : State :=
  match e with
  | setQuery q =>
      {| query := q; suggestions := suggestions st;
         showSuggestions := showSuggestions st;
         selectedSuggestionIndex := selectedSuggestionIndex st |}
  | setSuggestions l =>
      {| query := query st; suggestions := l;
         showSuggestions := showSuggestions st;
         selectedSuggestionIndex := selectedSuggestionIndex st |}
  | setShowSuggestions b =>
      {| query := query st; suggestions := suggestions st;
         showSuggestions := b;
         selectedSuggestionIndex := selectedSuggestionIndex st |}
  | setSelectedSuggestionIndex i =>
      {| query := query st; suggestions := suggestions st;
         showSuggestions := showSuggestions st;
         selectedSuggestionIndex := i |}
  | updateSelectedSuggestionIndex f =>
      {| query := query st; suggestions := suggestions st;
         showSuggestions := showSuggestions st;
         selectedSuggestionIndex := f (selectedSuggestionIndex st) |}
  | onSearch _ => st
  end.

Definition commit (st : State) (effects : list Effect) : State :=
  fold_left update effects st.

(** The arguments of the [onSearch] calls among the effects, in order. *)
Definition searches (effects : list Effect) : list str :=
  flat_map (fun e => match e with onSearch q => [q] | _ => [] end) effects.

Definition step (toLowerCase : str -> str) (st : State) (e : Event)
  : option (State * list str) :=
  match dispatch toLowerCase st e with
  | Some effects => Some (commit st effects, searches effects)
  | None => None
  end.

Fixpoint run (toLowerCase : str -> str) (st : State) (events : list Event)
  : option (State * list str) :=
  match events with
  | [] => Some (st, [])
  | e :: rest =>
      match step toLowerCase st e with
      | None => None
      | Some (st1, out1) =>
          match run toLowerCase st1 rest with
          | None => None
          | Some (st2, out2) => Some (st2, out1 ++ out2)
          end
      end
  end.

(** A string with a character that is not white space. *)
Definition blank (s : str) : bool := forallb isWhiteSpace s.

(** The selection is [-1] or the index of a suggestion, the dropdown is
    shown only with suggestions, and no suggestion is blank. *)
Definition Inv (st : State) : Prop :=
  (-1 <= selectedSuggestionIndex st < Z.of_nat (List.length (suggestions st)))%Z
  /\ (showSuggestions st = true -> suggestions st <> [])
  /\ Forall (fun s => blank s = false) (suggestions st).

(** The state [st] with the selection [i]. *)
Definition withIndex (st : State) (i : Z) : State :=
  {| query := query st; suggestions := suggestions st;
     showSuggestions := showSuggestions st; selectedSuggestionIndex := i |}.

(** The state after [handleInputChange value] from the mounted state. *)
Definition typed (toLowerCase : str -> str) (value : str) : State :=
  let newSuggestions := generateSuggestions toLowerCase value in
  {| query := value; suggestions := newSuggestions;
     showSuggestions := (0 <? List.length value)%nat
                        && (0 <? List.length newSuggestions)%nat;
     selectedSuggestionIndex := (-1)%Z |}.

(** [toLowerCase] on the letters A to Z alone, for inputs in ASCII. *)
Definition asciiToLowerCase (s : str) : str :=
  map (fun c => if (65 <=? c)%N && (c <=? 90)%N then (c + 32)%N else c) s.

End SearchBar.

(** * Properties *)

(** ** Numbers *)

(** Case analysis on every comparison of reals in the goal, closing the
    branches that contradict the context. *)
Ltac rcases :=
  unfold Rltb, Rleb, Reqb in *;
  repeat (match goal with
          | |- context [Rlt_dec ?a ?b] => destruct (Rlt_dec a b)
          | |- context [Rle_dec ?a ?b] => destruct (Rle_dec a b)
          | |- context [Req_dec_T ?a ?b] => destruct (Req_dec_T a b)
          end; cbn in *; try lra).

Ltac js_unfold :=
  unfold Math_max, Math_min, Math_abs, Math_floor, Spec.clamp,
    ge, gt, le, lt, sub, add, mul, div, neg, inf_times, inf in *;
  cbn in *.

Lemma Rltb_true (a b : R) : a < b -> Rltb a b = true.
Proof. intros; rcases; reflexivity. Qed.

Lemma Rltb_false (a b : R) : b <= a -> Rltb a b = false.
Proof. intros; rcases; reflexivity. Qed.

Lemma Rleb_true (a b : R) : a <= b -> Rleb a b = true.
Proof. intros; rcases; reflexivity. Qed.

Lemma Rleb_false (a b : R) : b < a -> Rleb a b = false.
Proof. intros; rcases; reflexivity. Qed.

Lemma Reqb_refl (a : R) : Reqb a a = true.
Proof. rcases; reflexivity. Qed.

Lemma Reqb_false (a b : R) : a <> b -> Reqb a b = false.
Proof. intros; unfold Reqb; destruct (Req_dec_T a b); congruence. Qed.

Lemma Fin_neq (a b : R) : a <> b -> Fin a <> Fin b.
Proof. intros H E; injection E; exact H. Qed.

(** [Math.max(lo, Math.min(hi, v))] is the clamp of [v], whatever [v] is. *)
Lemma max_min_clamp (lo hi : R) (v : number) :
  lo <= hi -> Math_max (Fin lo) (Math_min (Fin hi) v) = Spec.clamp v (Fin lo) (Fin hi).
Proof.
  intros Hle; destruct v as [| | | x]; js_unfold; rcases;
    try reflexivity; f_equal; lra.
Qed.

(** The clamp of a finite value is finite and within the bounds. *)
Lemma clamp_Fin (lo hi x : R) :
  lo <= hi ->
  exists y, Spec.clamp (Fin x) (Fin lo) (Fin hi) = Fin y /\ lo <= y <= hi
            /\ (lo <= x <= hi -> y = x) /\ (x < lo -> y = lo) /\ (hi < x -> y = hi).
Proof.
  intros Hle; js_unfold; rcases;
    eexists; (split; [reflexivity | repeat split; intros; lra]).
Qed.

Lemma Zfloor_IZR (z : Z) : Zfloor (IZR z) = z.
Proof. apply Zfloor_eq; lra. Qed.

Lemma Number_toString_int (z : Z) :
  (Z.abs z < 10 ^ 21)%Z -> Number_toString (Fin (IZR z)) = Some (Z_toString z).
Proof.
  intros Hz; unfold Number_toString; rewrite Zfloor_IZR.
  rewrite Reqb_refl.
  apply Z.ltb_lt in Hz; rewrite Hz; reflexivity.
Qed.

(** ** The interaction *)

(** [handleSeek] over a measured container calls [onSeek] once, with the
    spec's [pixelToTime] of the offset from the left edge. *)
Lemma handleSeek_pixelToTime (P : Props) (rect : DOMRect) (clientX : number) :
  handleSeek P (Some rect) clientX =
  [onSeek (Spec.pixelToTime (clientX - left rect)%js (width rect) (duration P))].
Proof.
  unfold handleSeek, Spec.pixelToTime; cbv zeta.
  rewrite (max_min_clamp 0 1) by lra; reflexivity.
Qed.

Lemma handleMouseMove_pixelToTime (P : Props) (st : State) (rect : DOMRect)
      (clientX : number) :
  isDragging st = false -> isHovering st = true ->
  handleMouseMove P st (Some rect) clientX =
  let time := Spec.pixelToTime (clientX - left rect)%js (width rect) (duration P) in
  [setPreviewTime time; setHoverTime time].
Proof.
  intros Hd Hh; unfold handleMouseMove, Spec.pixelToTime.
  rewrite Hd, Hh; cbn [negb andb]; cbv zeta.
  rewrite (max_min_clamp 0 1) by lra; reflexivity.
Qed.

Lemma seeks_app (l1 l2 : list Effect) : seeks (l1 ++ l2) = seeks l1 ++ seeks l2.
Proof. unfold seeks; apply flat_map_app. Qed.

Lemma seeks_handleMouseMove (P : Props) (st : State) (c : option DOMRect)
      (clientX : number) :
  seeks (handleMouseMove P st c clientX) = [].
Proof.
  unfold handleMouseMove.
  destruct (negb (isDragging st) && isHovering st), c; reflexivity.
Qed.

Lemma run_app (st : State) (l1 l2 : list Input) :
  run st (l1 ++ l2) =
  (fst (run (fst (run st l1)) l2), snd (run st l1) ++ snd (run (fst (run st l1)) l2)).
Proof.
  revert st; induction l1 as [| i l1 IH]; intros st; cbn [run app].
  - cbn [fst snd app]; destruct (run st l2); reflexivity.
  - destruct (step st i) as [st1 out1].
    rewrite IH.
    destruct (run st1 l1) as [st2 out2]; cbn.
    rewrite app_assoc; reflexivity.
Qed.

Lemma run_cons (st : State) (i : Input) (rest : list Input) :
  run st (i :: rest) =
  (fst (run (fst (step st i)) rest), snd (step st i) ++ snd (run (fst (step st i)) rest)).
Proof.
  cbn [run]; destruct (step st i) as [st1 out1]; cbn.
  destruct (run st1 rest); reflexivity.
Qed.

(** Outside a drag, an event other than a press calls no [onSeek] and
    starts no drag. *)
Lemma step_not_dragging (st : State) (i : Input) :
  isDragging st = false -> isPointerDown (event i) = false ->
  isDragging (fst (step st i)) = false /\ snd (step st i) = [].
Proof.
  intros Hd Hdown; unfold step, dispatch, documentListeners; rewrite Hd.
  destruct (event i) as [| | over x | x | x | x | |]; try discriminate Hdown;
    cbn [fst snd]; try (cbn; split; [exact Hd | reflexivity]).
  rewrite app_nil_r; split.
  - unfold handleMouseMove; rewrite Hd.
    destruct over, (isHovering st), (container i); cbn; auto.
  - destruct over; [apply seeks_handleMouseMove | reflexivity].
Qed.

Lemma run_not_dragging (st : State) (inputs : list Input) :
  isDragging st = false -> noPointerDown inputs = true ->
  isDragging (fst (run st inputs)) = false /\ snd (run st inputs) = [].
Proof.
  revert st; induction inputs as [| i rest IH]; intros st Hd Hno.
  - split; [exact Hd | reflexivity].
  - cbn in Hno; apply andb_true_iff in Hno as [Hi Hrest].
    apply negb_true_iff in Hi.
    destruct (step_not_dragging st i Hd Hi) as [Hd1 Hout1].
    destruct (IH _ Hd1 Hrest) as [Hd2 Hout2].
    rewrite run_cons; cbn [fst snd]; rewrite Hout1, Hout2; auto.
Qed.

(** C9.  Hovering without dragging never calls [onSeek]: a sequence of
    events delivered to a freshly mounted component, none of which is a
    [mousedown] or a [touchstart], produces no [onSeek] call, and the hover
    handler [handleMouseMove] calls [onSeek] in no state at all. *)
Theorem hover_never_seeks (inputs : list Input) :
  noPointerDown inputs = true ->
  snd (run initialState inputs) = []
  /\ (forall P st c x, seeks (handleMouseMove P st c x) = []).
Proof.
  intros Hno; split.
  - apply (run_not_dragging initialState inputs); [reflexivity | exact Hno].
  - intros; apply seeks_handleMouseMove.
Qed.

(** *** The drag gesture *)

Section Drag.

Variable P : Props.
Variable rect : DOMRect.

Lemma step_pointer_down (st : State) (e : Event) :
  isPointerDown e = true ->
  snd (step st (measuredInput P rect e)) = [pointerTime P rect e]
  /\ isDragging (fst (step st (measuredInput P rect e))) = true.
Proof.
  intros He; destruct e; try discriminate He;
    unfold step, dispatch, measuredInput; cbn [props container event];
    unfold handleMouseDown, handleTouchStart, handleInteractionStart;
    rewrite handleSeek_pixelToTime; split; reflexivity.
Qed.

Lemma step_pointer_move (st : State) (e : Event) :
  isDragging st = true -> isPointerMove e = true ->
  snd (step st (measuredInput P rect e)) = [pointerTime P rect e]
  /\ isDragging (fst (step st (measuredInput P rect e))) = true
  /\ previewTime (fst (step st (measuredInput P rect e))) = previewTime st.
Proof.
  intros Hd He; destruct e as [| | over x | | | x | |]; try discriminate He;
    unfold step, dispatch, measuredInput, documentListeners;
    cbn [props container event]; rewrite Hd;
    unfold handleGlobalMouseMove, handleTouchMove, handleInteractionMove,
      handleMouseMove;
    rewrite Hd, handleSeek_pixelToTime; cbn [negb andb];
    try destruct over; cbn; auto.
Qed.

Lemma step_pointer_up (st : State) (i : Input) :
  isDragging st = true -> isPointerUp (event i) = true ->
  snd (step st i) = []
  /\ isDragging (fst (step st i)) = false
  /\ previewTime (fst (step st i)) = Fin (-1).
Proof.
  intros Hd He; unfold step, dispatch, documentListeners; rewrite Hd.
  destruct (event i); try discriminate He; cbn; auto.
Qed.

Lemma run_pointer_moves (st : State) (moves : list Event) :
  isDragging st = true -> forallb isPointerMove moves = true ->
  snd (run st (map (measuredInput P rect) moves))
  = map (pointerTime P rect) moves
  /\ isDragging (fst (run st (map (measuredInput P rect) moves))) = true.
Proof.
  revert st; induction moves as [| e moves IH]; intros st Hd Hm.
  - split; [reflexivity | exact Hd].
  - cbn in Hm; apply andb_true_iff in Hm as [He Hm].
    destruct (step_pointer_move st e Hd He) as (Hout & Hd1 & _).
    destruct (IH _ Hd1 Hm) as [Hout2 Hd2].
    cbn [map]; rewrite run_cons; cbn [fst snd].
    rewrite Hout, Hout2; split; [reflexivity | exact Hd2].
Qed.

(** C1.  A drag over a measured container: a press [down], then the
    moves [moves], then a release [release], then any events [rest] up
    to the next press.  The press calls [onSeek] once, with
    [pixelToTime] of its position, and starts the drag; the whole
    sequence calls [onSeek] once for the press and once for each move,
    in order, each time with [pixelToTime] of the pointer position, and
    nothing after the release; the release ends the drag. *)
Theorem drag_lifecycle (st : State) (down : Event) (moves : list Event)
        (release : Event) (rest : list Input) :
  isPointerDown down = true ->
  forallb isPointerMove moves = true ->
  isPointerUp release = true ->
  noPointerDown rest = true ->
  let gesture := map (measuredInput P rect) (down :: moves ++ [release]) in
  snd (step st (measuredInput P rect down)) =
    [Spec.pixelToTime (clientXOf down - left rect)%js (width rect) (duration P)]
  /\ isDragging (fst (step st (measuredInput P rect down))) = true
  /\ snd (run st (gesture ++ rest)) =
       map (fun e => Spec.pixelToTime (clientXOf e - left rect)%js
                       (width rect) (duration P))
           (down :: moves)
  /\ List.length (snd (run st (gesture ++ rest))) = S (List.length moves)
  /\ isDragging (fst (run st gesture)) = false.
Proof.
  intros Hdown Hmoves Hup Hrest gesture.
  destruct (step_pointer_down st down Hdown) as [Hout0 Hd0].
  set (st0 := fst (step st (measuredInput P rect down))) in *.
  destruct (run_pointer_moves st0 moves Hd0 Hmoves) as [Hout1 Hd1].
  set (st1 := fst (run st0 (map (measuredInput P rect) moves))) in *.
  destruct (step_pointer_up st1 (measuredInput P rect release) Hd1 Hup)
    as (Hout2 & Hd2 & _).
  set (st2 := fst (step st1 (measuredInput P rect release))) in *.
  destruct (run_not_dragging st2 rest Hd2 Hrest) as [_ Hout3].
  assert (Hgesture : run st gesture
                     = (st2, map (pointerTime P rect) (down :: moves))).
  { unfold gesture; cbn [map]; rewrite map_app; cbn [map].
    rewrite run_cons, run_app; fold st0; cbn [fst snd]; fold st1.
    rewrite Hout0, Hout1.
    cbn [run]; fold st2.
    destruct (step st1 (measuredInput P rect release)) as [s o] eqn:E.
    cbn [snd] in Hout2; subst o; unfold st2; cbn [fst snd].
    rewrite app_nil_r; reflexivity. }
  assert (Hall : snd (run st (gesture ++ rest))
                 = map (pointerTime P rect) (down :: moves)).
  { rewrite run_app, Hgesture; cbn [fst snd]; rewrite Hout3, app_nil_r.
    reflexivity. }
  split; [exact Hout0 |].
  split; [exact Hd0 |].
  split; [exact Hall |].
  split.
  - rewrite Hall; cbn [map List.length]; rewrite length_map; reflexivity.
  - rewrite Hgesture; exact Hd2.
Qed.

End Drag.

(** *** The preview time *)

Lemma commit_handleSeek (P : Props) (st : State) (c : option DOMRect)
      (x : number) :
  commit st (handleSeek P c x) = st.
Proof. destruct c; reflexivity. Qed.

Lemma commit_app (st : State) (l1 l2 : list Effect) :
  commit st (l1 ++ l2) = commit (commit st l1) l2.
Proof. apply fold_left_app. Qed.

(** During a drag, an event other than a release keeps the drag going, and
    changes [previewTime] only if it is a [mouseleave], which clears it. *)
Lemma step_dragging (st : State) (i : Input) :
  isDragging st = true -> isPointerUp (event i) = false ->
  isDragging (fst (step st i)) = true
  /\ previewTime (fst (step st i)) =
     if isPointerLeave (event i) then Fin (-1) else previewTime st.
Proof.
  intros Hd Hup; unfold step, dispatch, documentListeners; rewrite Hd.
  cbn [fst].
  destruct (event i) as [| | over x | x | x | x | |]; try discriminate Hup;
    cbn [isPointerLeave];
    unfold handleMouseDown, handleTouchStart, handleInteractionStart,
      handleGlobalMouseMove, handleTouchMove, handleInteractionMove,
      handleMouseMove, onMouseEnter, onMouseLeave;
    rewrite ?Hd; cbn [negb andb].
  - cbn; auto.
  - cbn; auto.
  - replace (if over then [] else []) with (@nil Effect) by (destruct over; reflexivity).
    cbn [app]; rewrite commit_handleSeek; auto.
  - change (setIsDragging true :: ?l) with ([setIsDragging true] ++ l).
    rewrite commit_app, commit_handleSeek; cbn; auto.
  - change (setIsDragging true :: ?l) with ([setIsDragging true] ++ l).
    rewrite commit_app, commit_handleSeek; cbn; auto.
  - rewrite commit_handleSeek; auto.
Qed.

Lemma run_dragging (st : State) (inputs : list Input) :
  isDragging st = true -> noPointerUp inputs = true ->
  isDragging (fst (run st inputs)) = true
  /\ previewTime (fst (run st inputs)) =
     if existsb (fun i => isPointerLeave (event i)) inputs
     then Fin (-1) else previewTime st.
Proof.
  revert st; induction inputs as [| i rest IH]; intros st Hd Hno.
  - split; [exact Hd | reflexivity].
  - cbn in Hno; apply andb_true_iff in Hno as [Hi Hrest].
    apply negb_true_iff in Hi.
    destruct (step_dragging st i Hd Hi) as [Hd1 Hp1].
    destruct (IH _ Hd1 Hrest) as [Hd2 Hp2].
    rewrite run_cons; cbn [fst existsb]; split; [exact Hd2 |].
    rewrite Hp2, Hp1.
    destruct (isPointerLeave (event i)), (existsb _ rest); reflexivity.
Qed.

(** C10, as the code has it.  During a drag no pointer move changes
    [previewTime]; over any events up to the release the drag goes on and
    [previewTime] keeps the value it had when the drag began unless the
    pointer leaves the container, which clears it; the release clears it. *)
Theorem dragging_preview_time (st : State) (inputs : list Input) (release : Input) :
  isDragging st = true ->
  noPointerUp inputs = true ->
  isPointerUp (event release) = true ->
  (forall i, isPointerMove (event i) = true ->
             isDragging (fst (step st i)) = true
             /\ previewTime (fst (step st i)) = previewTime st)
  /\ isDragging (fst (run st inputs)) = true
  /\ previewTime (fst (run st inputs)) =
     (if existsb (fun i => isPointerLeave (event i)) inputs
      then Fin (-1) else previewTime st)
  /\ isDragging (fst (step (fst (run st inputs)) release)) = false
  /\ previewTime (fst (step (fst (run st inputs)) release)) = Fin (-1).
Proof.
  intros Hd Hno Hup.
  destruct (run_dragging st inputs Hd Hno) as [Hd1 Hp1].
  destruct (step_pointer_up (fst (run st inputs)) release Hd1 Hup) as (_ & Hd2 & Hp2).
  split; [| auto].
  intros i Hi.
  assert (Hnu : isPointerUp (event i) = false) by (destruct (event i); auto; discriminate Hi).
  destruct (step_dragging st i Hd Hnu) as [Hdi Hpi].
  split; [exact Hdi |].
  rewrite Hpi; destruct (event i); auto; discriminate Hi.
Qed.


(** Hover at pixel 50, press there, then leave the container while the
    button is held: the drag goes on, no release was delivered, and
    [previewTime] went from 100 to the cleared value. *)
Lemma dragging_preview_time_counterexample :
  let hoverThenPress :=
    map (measuredInput exampleProps exampleRect)
        [mouseenter; mousemove true (Fin 50); mousedown (Fin 50)] in
  let atPress := fst (run initialState hoverThenPress) in
  let afterLeave := fst (step atPress (measuredInput exampleProps exampleRect mouseleave)) in
  isDragging atPress = true
  /\ previewTime atPress = Fin 100
  /\ isDragging afterLeave = true
  /\ previewTime afterLeave = Fin (-1)
  /\ previewTime afterLeave <> previewTime atPress.
Proof.
  cbv zeta.
  assert (E : previewTime (fst (run initialState
             (map (measuredInput exampleProps exampleRect)
                [mouseenter; mousemove true (Fin 50); mousedown (Fin 50)]))) = Fin 100).
  { cbn; js_unfold; rcases; f_equal; lra. }
  repeat split; try reflexivity; try exact E.
  rewrite E; apply Fin_neq; lra.
Qed.

Lemma sub_Fin (x l : R) : (Fin x - Fin l)%js = Fin (x - l).
Proof. cbn; f_equal; lra. Qed.

Lemma div_Fin (x w : R) : w <> 0 -> (Fin x / Fin w)%js = Fin (x / w).
Proof. intros Hw; unfold div; rewrite Reqb_false by exact Hw; reflexivity. Qed.

(** For a finite offset, a positive width and a duration [d >= 0],
    [pixelToTime] is the clamp of [x / w] times the duration, hence between
    0 and the duration. *)
Lemma pixelToTime_finite (x w d : R) :
  0 < w -> 0 <= d ->
  exists y, Spec.pixelToTime (Fin x) (Fin w) (Fin d) = Fin (y * d)
            /\ Spec.clamp (Fin x / Fin w)%js 0 1 = Fin y
            /\ 0 <= y <= 1 /\ 0 <= y * d <= d.
Proof.
  intros Hw Hd; unfold Spec.pixelToTime.
  rewrite div_Fin by lra.
  destruct (clamp_Fin 0 1 (x / w)) as (y & Hy & Hr & _); [lra |].
  exists y; rewrite Hy; cbn.
  repeat split; try lra; nra.
Qed.

Lemma phase_not_Idle (st : State) :
  phase st <> Idle <-> isDragging st = true \/ isHovering st = true.
Proof.
  unfold phase; destruct (isDragging st), (isHovering st); split;
    intros H; auto; try discriminate; try congruence.
  destruct H; discriminate.
Qed.

Lemma PreviewInv_initial (d : R) : PreviewInv d initialState.
Proof. intros H; exfalso; apply H; reflexivity. Qed.

Lemma PreviewInv_step (d : R) (st : State) (i : Input) :
  0 <= d -> duration (props i) = Fin d ->
  positiveWidth (container i) -> finitePointer (event i) ->
  PreviewInv d st -> PreviewInv d (fst (step st i)).
Proof.
  intros Hd Hdur Hw Hx Hinv.
  unfold step, dispatch, documentListeners; cbn [fst].
  destruct (event i) as [| | over x | x | x | x | |];
    unfold handleMouseDown, handleTouchStart, handleInteractionStart,
      handleGlobalMouseMove, handleTouchMove, handleInteractionMove,
      onMouseEnter, onMouseLeave, handleEnd.
  - (* mouseenter *)
    intros Hp; cbn in Hp; destruct (Hinv Hp) as [_ Ht].
    split; [| exact Ht].
    apply phase_not_Idle; right; reflexivity.
  - (* mouseleave *)
    intros Hp; exfalso; apply Hp; reflexivity.
  - (* mousemove *)
    destruct (isDragging st) eqn:Edrag.
    + replace (if over then handleMouseMove (props i) st (container i) x else [])
        with (@nil Effect)
        by (unfold handleMouseMove; rewrite Edrag; destruct over; reflexivity).
      cbn [app]; rewrite commit_handleSeek; exact Hinv.
    + rewrite app_nil_r.
      destruct over; [| exact Hinv].
      unfold handleMouseMove; rewrite Edrag; cbn [negb andb].
      destruct (isHovering st) eqn:Ehover; [| exact Hinv].
      destruct (container i) as [rect |]; [| exact Hinv].
      destruct Hw as (l & w & Hl & Hwd & Hpos), Hx as (cx & ->).
      rewrite (max_min_clamp 0 1) by lra.
      destruct (pixelToTime_finite (cx - l) w d Hpos Hd) as (y & Ht & _ & _ & Hb).
      unfold Spec.pixelToTime in Ht.
      rewrite Hl, Hwd, Hdur, sub_Fin, Ht.
      intros _; split.
      * apply phase_not_Idle; right; exact Ehover.
      * exists (y * d); split; [reflexivity | exact Hb].
  - (* mousedown *)
    change (setIsDragging true :: ?l) with ([setIsDragging true] ++ l).
    rewrite commit_app, commit_handleSeek.
    intros Hp; cbn in Hp; destruct (Hinv Hp) as [_ Ht].
    split; [apply phase_not_Idle; left; reflexivity | exact Ht].
  - (* touchstart *)
    change (setIsDragging true :: ?l) with ([setIsDragging true] ++ l).
    rewrite commit_app, commit_handleSeek.
    intros Hp; cbn in Hp; destruct (Hinv Hp) as [_ Ht].
    split; [apply phase_not_Idle; left; reflexivity | exact Ht].
  - (* touchmove *)
    destruct (isDragging st); [rewrite commit_handleSeek |]; exact Hinv.
  - (* mouseup *)
    destruct (isDragging st); [| exact Hinv].
    intros Hp; exfalso; apply Hp; reflexivity.
  - (* touchend *)
    destruct (isDragging st); [| exact Hinv].
    intros Hp; exfalso; apply Hp; reflexivity.
Qed.

Lemma PreviewInv_run (d : R) (inputs : list Input) (st : State) :
  0 <= d ->
  Forall (fun i => duration (props i) = Fin d /\ positiveWidth (container i)
                   /\ finitePointer (event i)) inputs ->
  PreviewInv d st -> PreviewInv d (fst (run st inputs)).
Proof.
  intros Hd Hall; revert st.
  induction Hall as [| i rest (Hdur & Hw & Hx) _ IH]; intros st Hinv.
  - exact Hinv.
  - rewrite run_cons; cbn [fst].
    apply IH, PreviewInv_step; assumption.
Qed.

(** An event that brings the component to [Idle] clears [previewTime]. *)
Lemma Idle_clears_previewTime (st : State) (i : Input) :
  phase st <> Idle -> phase (fst (step st i)) = Idle ->
  previewTime (fst (step st i)) = Fin (-1).
Proof.
  intros Hphase Hidle.
  destruct (isDragging st) eqn:Edrag.
  - destruct (isPointerUp (event i)) eqn:Eup.
    + apply (step_pointer_up st i Edrag Eup).
    + destruct (step_dragging st i Edrag Eup) as [Hd _].
      unfold phase in Hidle; rewrite Hd in Hidle; discriminate.
  - apply phase_not_Idle in Hphase as [Hd | Hh]; [congruence |].
    revert Hidle; unfold step, dispatch, documentListeners, phase; cbn [fst].
    rewrite Edrag.
    destruct (event i) as [| | over x | x | x | x | |];
      unfold handleMouseDown, handleTouchStart, handleInteractionStart, handleMouseMove;
      rewrite ?Edrag, ?Hh; cbn [negb andb];
      try (change (setIsDragging true :: ?l) with ([setIsDragging true] ++ l);
           rewrite commit_app, commit_handleSeek);
      cbn; rewrite ?Edrag, ?Hh; try discriminate; auto.
    rewrite app_nil_r; destruct over, (container i); cbn;
      rewrite ?Edrag, ?Hh; discriminate.
Qed.

(** C6.  The invariant of the interaction state holds when the component
    mounts and is kept by every event: for a finite duration [d >= 0], a
    container of positive width and a finite pointer position, if
    [previewTime] is not the cleared value after the event, then the phase
    is [Hovering] or [Dragging] and [0 <= previewTime <= d]; and an event
    that takes the component from another phase to [Idle] leaves
    [previewTime] cleared. *)
Theorem preview_invariant (d : R) (st : State) (i : Input) :
  0 <= d ->
  duration (props i) = Fin d ->
  positiveWidth (container i) ->
  finitePointer (event i) ->
  PreviewInv d st ->
  PreviewInv d initialState
  /\ PreviewInv d (fst (step st i))
  /\ (previewTime (fst (step st i)) <> Fin (-1) ->
      (phase (fst (step st i)) = Hovering \/ phase (fst (step st i)) = Dragging)
      /\ exists t, previewTime (fst (step st i)) = Fin t /\ 0 <= t <= d)
  /\ (phase st <> Idle -> phase (fst (step st i)) = Idle ->
      previewTime (fst (step st i)) = Fin (-1)).
Proof.
  intros Hd Hdur Hw Hx Hinv.
  pose proof (PreviewInv_step d st i Hd Hdur Hw Hx Hinv) as Hstep.
  split; [apply PreviewInv_initial |].
  split; [exact Hstep |].
  split; [| apply Idle_clears_previewTime].
  intros Hp; destruct (Hstep Hp) as [Hph Ht]; split; [| exact Ht].
  destruct (phase (fst (step st i))); auto; congruence.
Qed.

(** ** Pixels, times and progress *)

Lemma progressOf_finite (t d : R) :
  0 < d -> 0 <= t <= d ->
  Spec.progressOf (Fin t) (Fin d) = Fin (t / d) /\ 0 <= t / d <= 1.
Proof.
  intros Hd Ht.
  assert (Hq : 0 <= t / d <= 1).
  { assert (Hinv : 0 < / d) by (apply Rinv_0_lt_compat; lra).
    assert (Hone : d * / d = 1) by (field; lra).
    unfold Rdiv; split; nra. }
  split; [| exact Hq].
  unfold Spec.progressOf, gt, lt; rewrite Rltb_true by lra.
  rewrite div_Fin by lra.
  destruct (clamp_Fin 0 1 (t / d)) as (y & Hy & _ & Heq & _); [lra |].
  rewrite Hy, (Heq Hq); reflexivity.
Qed.

(** C2.  For a positive width [w], a positive duration [d] and any offset
    [x], the progress of the time of a pixel is the clamp of [x / w]: for
    the spec's [progressOf] and [pixelToTime], for the progress
    [drawWaveform] computes from the time [handleSeek] passes to [onSeek],
    and for the hover progress it computes from the preview time
    [handleMouseMove] sets.  Finite numbers are exact reals here, so the
    equality is exact. *)
Theorem pixel_time_round_trip (x w d : R) :
  0 < w -> 0 < d ->
  Spec.progressOf (Spec.pixelToTime (Fin x) (Fin w) (Fin d)) (Fin d)
  = Spec.clamp (Fin x / Fin w)%js 0 1
  /\ (forall (P : Props) (l : R),
        duration P = Fin d ->
        exists t,
          handleSeek P (Some {| left := Fin l; width := Fin w |}) (Fin (l + x))
          = [onSeek t]
          /\ progress {| currentTime := t; duration := Fin d |}
             = Spec.clamp (Fin x / Fin w)%js 0 1)
  /\ (forall (P : Props) (st : State) (l : R),
        duration P = Fin d -> isDragging st = false -> isHovering st = true ->
        exists t,
          handleMouseMove P st (Some {| left := Fin l; width := Fin w |}) (Fin (l + x))
          = [setPreviewTime t; setHoverTime t]
          /\ hoverProgress P (commit st [setPreviewTime t; setHoverTime t])
             = Spec.clamp (Fin x / Fin w)%js 0 1).
Proof.
  intros Hw Hd.
  destruct (pixelToTime_finite x w d Hw (Rlt_le _ _ Hd)) as (y & Ht & Hc & Hy & Hb).
  destruct (progressOf_finite (y * d) d Hd Hb) as [Hp _].
  assert (Hyd : y * d / d = y) by (field; lra).
  split; [| split].
  - rewrite Ht, Hp, Hc, Hyd; reflexivity.
  - intros P l HP.
    exists (Fin (y * d)); rewrite handleSeek_pixelToTime; cbn [left width].
    rewrite HP, sub_Fin.
    replace (l + x - l) with x by lra.
    rewrite Ht, Hc; split; [reflexivity |].
    unfold progress; cbn [currentTime duration].
    unfold gt, lt; rewrite Rltb_true by lra.
    rewrite div_Fin, Hyd by lra; reflexivity.
  - intros P st l HP Hdrag Hhover.
    exists (Fin (y * d)); rewrite handleMouseMove_pixelToTime by assumption.
    cbn [left width]; rewrite HP, sub_Fin.
    replace (l + x - l) with x by lra.
    rewrite Ht, Hc; split; [reflexivity |].
    unfold hoverProgress; cbn [commit fold_left update previewTime].
    rewrite HP; unfold gt, ge, lt, le.
    rewrite Rltb_true, Rleb_true by lra; cbn [andb].
    rewrite div_Fin, Hyd by lra; reflexivity.
Qed.

(** *** A container of width zero *)

(** C5, as the code has it.  With a container of width zero the offset is
    divided by zero: a pointer left of the container's left edge gives
    progress 0 and the time 0, a pointer right of it gives progress 1 and
    the time [duration], and a pointer exactly on it gives [NaN]; the same
    value is passed to [onSeek] by [handleSeek] and set as preview time by
    [handleMouseMove]. *)
Theorem zero_width_container (P : Props) (st : State) (clientX l d : R) :
  0 <= d ->
  duration P = Fin d ->
  let rect := {| left := Fin l; width := Fin 0 |} in
  let time := if Rltb clientX l then Fin 0
              else if Rltb l clientX then Fin d
              else NaN in
  handleSeek P (Some rect) (Fin clientX) = [onSeek time]
  /\ (isDragging st = false -> isHovering st = true ->
      handleMouseMove P st (Some rect) (Fin clientX)
      = [setPreviewTime time; setHoverTime time]).
Proof.
  intros Hd HP rect time.
  assert (E : Spec.pixelToTime (Fin clientX - left rect)%js (width rect) (duration P)
              = time).
  { unfold rect, time, Spec.pixelToTime; cbn [left width].
    rewrite HP, sub_Fin; js_unfold; rcases; try reflexivity; f_equal; lra. }
  split.
  - rewrite handleSeek_pixelToTime, E; reflexivity.
  - intros Hdrag Hhover.
    rewrite handleMouseMove_pixelToTime by assumption.
    cbv zeta; rewrite E; reflexivity.
Qed.

(** With a 200 second track and a container of width zero, a press 10
    pixels right of the left edge seeks to 200, not to 0, and a hover there
    previews 200. *)
Lemma zero_width_container_counterexample :
  let rect := {| left := Fin 0; width := Fin 0 |} in
  let hovering := {| isDragging := false; isHovering := true;
                     hoverTime := Fin 0; previewTime := Fin (-1) |} in
  handleSeek exampleProps (Some rect) (Fin 10) = [onSeek (Fin 200)]
  /\ handleMouseMove exampleProps hovering (Some rect) (Fin 10)
     = [setPreviewTime (Fin 200); setHoverTime (Fin 200)]
  /\ Fin 200 <> Fin 0.
Proof.
  cbv zeta; split; [| split].
  - unfold handleSeek; cbn; js_unfold; rcases; repeat f_equal; lra.
  - unfold handleMouseMove; cbn; js_unfold; rcases; repeat f_equal; lra.
  - apply Fin_neq; lra.
Qed.

(** ** [formatTime] *)

(** A positive finite number of seconds prints as the floor of the minutes,
    a colon, and the floor of the remaining seconds padded to two
    characters. *)
Lemma formatTime_positive (s : R) (m r : Z) :
  0 < s ->
  IZR m <= s / 60 < IZR m + 1 ->
  IZR r <= s - 60 * IZR m < IZR r + 1 ->
  (Z.abs m < 10 ^ 21)%Z -> (Z.abs r < 10 ^ 21)%Z ->
  formatTime (Fin s)
  = Some (Z_toString m ++ ":" ++ padStart 2 "0" (Z_toString r))%string.
Proof.
  intros Hs Hm Hr Bm Br.
  unfold formatTime, ToBoolean, isNaN.
  rewrite Reqb_false by lra; cbn [negb orb].
  rewrite div_Fin by lra.
  unfold rem; rewrite Reqb_false by lra.
  unfold Ztrunc; rewrite Rltb_false by lra.
  cbn [Math_floor].
  rewrite (Zfloor_eq m (s / 60) Hm), (Zfloor_eq r (s - 60 * IZR m) Hr).
  rewrite (Number_toString_int m Bm), (Number_toString_int r Br); reflexivity.
Qed.

(** C8.  The values of [formatTime] the claim lists, and the values at the
    infinities, which the guard [!seconds || isNaN(seconds)] lets
    through. *)
Theorem formatTime_values :
  formatTime (Fin 0) = Some "0:00"%string
  /\ formatTime (Fin 65) = Some "1:05"%string
  /\ formatTime (Fin 125.4) = Some "2:05"%string
  /\ formatTime (Fin 3600) = Some "60:00"%string
  /\ formatTime NaN = Some "0:00"%string
  /\ formatTime PInf = Some "Infinity:NaN"%string
  /\ formatTime NInf = Some "-Infinity:NaN"%string.
Proof.
  repeat split.
  - unfold formatTime, ToBoolean; rewrite Reqb_refl; reflexivity.
  - rewrite (formatTime_positive 65 1 5); [reflexivity | lra | lra | lra | lia | lia].
  - rewrite (formatTime_positive 125.4 2 5); [reflexivity | lra | lra | lra | lia | lia].
  - rewrite (formatTime_positive 3600 60 0); [reflexivity | lra | lra | lra | lia | lia].
  - unfold formatTime, div, rem; cbn; rewrite Rltb_false by lra; reflexivity.
  - unfold formatTime, div, rem; cbn; rewrite Rltb_false by lra; reflexivity.
Qed.

(** ** The colour of a bar *)



Lemma barPosition_finite (N i : nat) :
  (i < N)%nat ->
  (Fin (INR i) / Fin (INR N))%js = Fin (INR i / INR N)
  /\ 0 <= INR i / INR N < 1.
Proof.
  intros Hi.
  assert (HN : 0 < INR N) by (apply lt_0_INR; lia).
  assert (Hi0 : 0 <= INR i) by apply pos_INR.
  assert (HiN : INR i < INR N) by (apply lt_INR; exact Hi).
  assert (Hinv : 0 < / INR N) by (apply Rinv_0_lt_compat; exact HN).
  assert (Hone : INR N * / INR N = 1) by (field; lra).
  split; [apply div_Fin; lra |].
  unfold Rdiv; split; nra.
Qed.

Lemma barPosition_le (N i j : nat) :
  (i <= j)%nat -> (j < N)%nat -> INR i / INR N <= INR j / INR N.
Proof.
  intros Hij Hj.
  assert (HN : 0 < INR N) by (apply lt_0_INR; lia).
  assert (Hinv : 0 < / INR N) by (apply Rinv_0_lt_compat; exact HN).
  assert (Hle : INR i <= INR j) by (apply le_INR; exact Hij).
  unfold Rdiv; nra.
Qed.



Lemma Rltb_lt (a b : R) : Rltb a b = true -> a < b.
Proof. unfold Rltb; destruct (Rlt_dec a b); [auto | discriminate]. Qed.

Lemma Rleb_le (a b : R) : Rleb a b = true -> a <= b.
Proof. unfold Rleb; destruct (Rle_dec a b); [auto | discriminate]. Qed.

Lemma barFillStyle_cases (P : Props) (st : State) (N i : nat) (q h r : R) :
  progress P = Fin q -> hoverProgress P st = Fin h ->
  (Fin (INR i) / Fin (INR N))%js = Fin r ->
  barFillStyle P st N i =
  if Rleb 0 h && Rleb r h && Rltb q r then hoverPreview
  else if Rleb r q
       then played (Math_min 1 ((Fin q - Fin r) * Fin 10 + Fin 0.6)%js)
       else unplayed.
Proof.
  intros Hq Hh Hr; unfold barFillStyle; cbv zeta.
  rewrite Hq, Hh, Hr; reflexivity.
Qed.

Lemma progress_is_finite (c d : R) :
  exists q, progress {| currentTime := Fin c; duration := Fin d |} = Fin q.
Proof.
  unfold progress, gt, lt; cbn [currentTime duration].
  destruct (Rltb 0 d) eqn:E; [| eexists; reflexivity].
  apply Rltb_lt in E; rewrite div_Fin by lra; eexists; reflexivity.
Qed.



(** ** The waveform *)

Lemma bar_closed_form (rng : nat -> R) (bars i : Z) (k : nat) :
  bars <> 0%Z ->
  bar rng bars i k
  = (amplitudeOf bars i (noiseOf (rng k)) (peakOf (rng (S k)) (rng (S (S k)))),
     (drawsOf (rng (S k)) + k)%nat).
Proof.
  intros Hbars.
  assert (HR : IZR bars <> 0) by (apply not_0_IZR; exact Hbars).
  unfold bar, bind, Math_random, ret; cbv zeta.
  rewrite div_Fin by exact HR.
  unfold amplitudeOf, peakOf, drawsOf, noiseOf, waves, envelope, Math_PI.
  cbn [mul add sub neg Math_sin lt].
  destruct (Rltb (rng (S k)) 0.05); cbn [mul add Math_abs];
    rewrite ?Rplus_0_r; reflexivity.
Qed.

Lemma amplitudeOf_clamp (bars i : Z) (noise peak : R) :
  amplitudeOf bars i noise peak
  = Spec.clamp
      (Fin (Rabs ((waves bars i + noise) * envelope bars i + peak) + 0.3))
      0.1 1.0.
Proof. unfold amplitudeOf; apply max_min_clamp; lra. Qed.

Lemma amplitudeOf_range (bars i : Z) (noise peak : R) :
  isAmplitude (amplitudeOf bars i noise peak).
Proof.
  rewrite amplitudeOf_clamp.
  destruct (clamp_Fin 0.1 1.0
              (Rabs ((waves bars i + noise) * envelope bars i + peak) + 0.3))
    as (y & Hy & Hr & _); [lra |].
  exists y; split; [exact Hy | lra].
Qed.

Lemma envelope_nonneg (bars i : Z) : 0 <= envelope bars i.
Proof.
  unfold envelope; cbv zeta.
  pose proof (SIN_bound (IZR i / IZR bars * PI * 4)) as [Hlo _]; lra.
Qed.

(** What the loop appends to [data]: one amplitude per iteration, the
    first from the draws at [k], each from the draws at some position of
    the sequence. *)
Lemma loop_appends (rng : nat -> R) (bars : Z) (n : nat) :
  bars <> 0%Z ->
  forall (i : Z) (data : list number) (k : nat),
  exists tail,
    fst (loop rng bars n i data k) = data ++ tail
    /\ List.length tail = n
    /\ Forall isAmplitude tail
    /\ (forall j, (j < n)%nat ->
          exists k', nth j tail NaN
                     = amplitudeOf bars (i + Z.of_nat j) (noiseOf (rng k'))
                         (peakOf (rng (S k')) (rng (S (S k')))))
    /\ ((0 < n)%nat -> nth 0 tail NaN = fst (bar rng bars i k)).
Proof.
  intros Hbars; induction n as [| n IH]; intros i data k.
  - exists []; cbn; rewrite app_nil_r.
    repeat split; auto; intros; lia.
  - cbn [loop]; unfold bind at 1.
    rewrite (bar_closed_form rng bars i k Hbars).
    set (a := amplitudeOf bars i _ _).
    destruct (IH (i + 1)%Z (data ++ [a]) (drawsOf (rng (S k)) + k)%nat)
      as (tail & Htail & Hlen & Hall & Hnth & _).
    exists (a :: tail); rewrite Htail, <- app_assoc; cbn [app List.length fst].
    split; [reflexivity |].
    split; [rewrite Hlen; reflexivity |].
    split; [constructor; [apply amplitudeOf_range | exact Hall] |].
    split; [| intros _; reflexivity].
    intros [| j] Hj; cbn [nth].
    + exists k; rewrite Z.add_0_r; reflexivity.
    + destruct (Hnth j) as (k' & Hk'); [lia |].
      exists k'; rewrite Hk'.
      replace (i + 1 + Z.of_nat j)%Z with (i + Z.of_nat (S j))%Z by lia.
      reflexivity.
Qed.

(** C3.  For every [barCount] the generator returns exactly [barCount]
    amplitudes (none when [barCount <= 0]), each a finite number between
    0.1 and 1; the component calls it with 150 bars. *)
Theorem generate_series (rng : nat -> R) (barCount : Z) (k : nat) :
  let data := fst (generate rng barCount k) in
  List.length data = Z.to_nat barCount
  /\ Forall isAmplitude data
  /\ ((barCount <= 0)%Z -> data = [])
  /\ generateWaveform rng k = generate rng 150 k
  /\ List.length (fst (generateWaveform rng k)) = 150%nat.
Proof.
  assert (Hgen : forall b, (0 < b)%Z ->
            List.length (fst (generate rng b k)) = Z.to_nat b
            /\ Forall isAmplitude (fst (generate rng b k))).
  { intros b Hb; unfold generate.
    destruct (loop_appends rng b (Z.to_nat b) ltac:(lia) 0%Z [] k)
      as (tail & Htail & Hlen & Hall & _).
    rewrite Htail; cbn [app]; auto. }
  cbv zeta; destruct (Z_lt_le_dec 0 barCount) as [Hpos | Hneg].
  - destruct (Hgen barCount Hpos) as [Hlen Hall].
    split; [exact Hlen |]; split; [exact Hall |].
    split; [intros; lia |].
    split; [reflexivity |].
    apply (Hgen 150%Z); lia.
  - assert (E : fst (generate rng barCount k) = []).
    { unfold generate; replace (Z.to_nat barCount) with 0%nat by lia.
      reflexivity. }
    rewrite E; cbn [List.length].
    split; [lia |]; split; [constructor |].
    split; [reflexivity |].
    split; [reflexivity |].
    apply (Hgen 150%Z); lia.
Qed.

(** The uniform draws of [Math.random] give a noise in [-0.15, 0.15) and a
    peak in [0, 0.4). *)
Lemma noise_peak_range (r1 r2 r3 : R) :
  0 <= r1 < 1 -> 0 <= r3 < 1 ->
  -0.15 <= noiseOf r1 < 0.15 /\ 0 <= peakOf r2 r3 < 0.4.
Proof.
  intros H1 H3; unfold noiseOf, peakOf; destruct (Rltb r2 0.05); lra.
Qed.

(** Without a peak the absolute value can be taken before the envelope
    multiplies, as the spec words it, because the envelope is not
    negative. *)
Lemma amplitudeOf_no_peak (bars i : Z) (noise : R) :
  amplitudeOf bars i noise 0 = Spec.amplitude bars i noise 0.
Proof.
  rewrite amplitudeOf_clamp; unfold Spec.amplitude.
  rewrite !Rplus_0_r, Rabs_mult.
  rewrite (Rabs_right (envelope bars i))
    by (apply Rle_ge, envelope_nonneg).
  reflexivity.
Qed.

(** C4, as the code has it.  The amplitude of the bar [i] of [barCount] is
    the clamp to [0.1, 1.0] of [|(waves + noise) * envelope + peak| + 0.3]
    for a noise and a peak made of consecutive draws: the envelope
    multiplies the signed sum, the optional peak is added, the absolute
    value is taken of that, and 0.3 is added last.  When no peak is taken
    this is the spec's formula. *)
Theorem amplitude_formula (rng : nat -> R) (barCount i : Z) (k0 : nat) :
  (0 <= i < barCount)%Z ->
  exists k : nat,
    let noise := noiseOf (rng k) in
    let peak := peakOf (rng (S k)) (rng (S (S k))) in
    nth (Z.to_nat i) (fst (generate rng barCount k0)) NaN
    = Spec.clamp
        (Fin (Rabs ((waves barCount i + noise) * envelope barCount i + peak) + 0.3))
        0.1 1.0
    /\ (rng (S k) >= 0.05 ->
        nth (Z.to_nat i) (fst (generate rng barCount k0)) NaN
        = Spec.amplitude barCount i noise 0)
    /\ (0 <= rng k < 1 -> 0 <= rng (S (S k)) < 1 ->
        -0.15 <= noise < 0.15 /\ 0 <= peak < 0.4).
Proof.
  intros Hi; unfold generate.
  destruct (loop_appends rng barCount (Z.to_nat barCount) ltac:(lia) 0%Z [] k0)
    as (tail & Htail & _ & _ & Hnth & _).
  destruct (Hnth (Z.to_nat i)) as (k & Hk); [lia |].
  rewrite Htail; cbn [app].
  rewrite Z.add_0_l, Z2Nat.id in Hk by lia.
  exists k; cbv zeta; rewrite Hk.
  split; [apply amplitudeOf_clamp |].
  split; [| apply noise_peak_range].
  intros Hno; unfold peakOf; rewrite Rltb_false by lra.
  apply amplitudeOf_no_peak.
Qed.

(** The first bar, with the draws 0, 0 and 0.5: the noise is -0.15, the
    envelope 0.5, a peak of 0.2 is taken.  The loop pushes
    [|-0.075 + 0.2| + 0.3 = 0.425]; the spec's formula gives
    [|-0.15| * 0.5 + 0.3 + 0.2 = 0.575]. *)
Lemma amplitude_formula_counterexample :
  noiseOf (exampleRng 0) = -0.15
  /\ peakOf (exampleRng 1) (exampleRng 2) = 0.2
  /\ nth 0 (fst (generateWaveform exampleRng 0%nat)) NaN = Fin 0.425
  /\ Spec.amplitude 150 0 (noiseOf (exampleRng 0))
       (peakOf (exampleRng 1) (exampleRng 2)) = Fin 0.575
  /\ Fin 0.425 <> Fin 0.575.
Proof.
  assert (Hw : waves 150 0 = 0).
  { unfold waves; cbv zeta.
    replace (0 / 150 * PI * 8) with 0 by lra.
    replace (0 / 150 * PI * 16) with 0 by lra.
    replace (0 / 150 * PI * 32) with 0 by lra.
    rewrite sin_0; lra. }
  assert (He : envelope 150 0 = 0.5).
  { unfold envelope; cbv zeta.
    replace (0 / 150 * PI * 4) with 0 by lra.
    rewrite sin_0; lra. }
  assert (Hn : noiseOf (exampleRng 0) = -0.15) by (unfold noiseOf; cbn; lra).
  assert (Hp : peakOf (exampleRng 1) (exampleRng 2) = 0.2).
  { unfold peakOf; cbn; rewrite Rltb_true by lra; lra. }
  split; [exact Hn |]; split; [exact Hp |].
  split; [| split; [| apply Fin_neq; lra]].
  - unfold generateWaveform, generate.
    destruct (loop_appends exampleRng 150 (Z.to_nat 150) ltac:(lia) 0%Z [] 0%nat)
      as (tail & Htail & _ & _ & _ & Hhead).
    rewrite Htail; cbn [app]; rewrite Hhead by (cbn; lia).
    rewrite bar_closed_form by lia; cbn [fst].
    rewrite amplitudeOf_clamp, Hn, Hp, Hw, He.
    replace (Rabs ((0 + -0.15) * 0.5 + 0.2) + 0.3) with 0.425
      by (rewrite Rabs_right; lra).
    js_unfold; rcases; reflexivity.
  - unfold Spec.amplitude; rewrite Hn, Hp, Hw, He.
    replace (Rabs (0 + -0.15) * 0.5 + 0.3 + 0.2) with 0.575
      by (rewrite Rabs_left; lra).
    js_unfold; rcases; reflexivity.
Qed.

(** ** The theorems at concrete inputs *)

(** A press at pixel 50, a move to 150 outside the container, a touch move
    to 25 and a release. *)
Lemma drag_lifecycle_witness :
  snd (run initialState
         (map (measuredInput exampleProps exampleRect)
            [mousedown (Fin 50); mousemove false (Fin 150); touchmove (Fin 25);
             mouseup]))
  = map (pointerTime exampleProps exampleRect)
      [mousedown (Fin 50); mousemove false (Fin 150); touchmove (Fin 25)].
Proof.
  pose proof (drag_lifecycle exampleProps exampleRect initialState
                (mousedown (Fin 50))
                [mousemove false (Fin 150); touchmove (Fin 25)]
                mouseup [] eq_refl eq_refl eq_refl eq_refl) as H.
  cbv zeta in H; destruct H as (_ & _ & H & _).
  rewrite app_nil_r in H; exact H.
Defined.

Lemma pixel_time_round_trip_witness :
  Spec.progressOf (Spec.pixelToTime (Fin 50) (Fin 100) (Fin 200)) (Fin 200)
  = Spec.clamp (Fin 50 / Fin 100)%js 0 1.
Proof.
  destruct (pixel_time_round_trip 50 100 200) as [H _]; [lra | lra | exact H].
Defined.

Lemma generate_first_bar_witness :
  exists k : nat,
    nth (Z.to_nat 0) (fst (generate exampleRng 150 0%nat)) NaN
    = Spec.clamp
        (Fin (Rabs ((waves 150 0 + noiseOf (exampleRng k)) * envelope 150 0
                    + peakOf (exampleRng (S k)) (exampleRng (S (S k)))) + 0.3))
        0.1 1.0.
Proof.
  destruct (amplitude_formula exampleRng 150 0 0%nat) as (k & H & _); [lia |].
  exists k; exact H.
Defined.

Lemma zero_width_container_witness :
  handleSeek exampleProps (Some {| left := Fin 0; width := Fin 0 |}) (Fin 10)
  = [onSeek (if Rltb 10 0 then Fin 0 else if Rltb 0 10 then Fin 200 else NaN)].
Proof.
  destruct (zero_width_container exampleProps initialState 10 0 200) as [H _];
    [lra | reflexivity | exact H].
Defined.

(** Two steps of a hover: a move at pixel 50 over the container defines the
    preview time, 100, in the [Hovering] phase; leaving the container from
    there brings the component to [Idle] and clears it. *)
Lemma preview_invariant_witness :
  let hovering := {| isDragging := false; isHovering := true;
                     hoverTime := Fin 0; previewTime := Fin (-1) |} in
  let hovered := {| isDragging := false; isHovering := true;
                    hoverTime := Fin 100; previewTime := Fin 100 |} in
  let move := measuredInput exampleProps exampleRect (mousemove true (Fin 50)) in
  let leave := measuredInput exampleProps exampleRect mouseleave in
  (previewTime (fst (step hovering move)) = Fin 100
   /\ (phase (fst (step hovering move)) = Hovering
       \/ phase (fst (step hovering move)) = Dragging)
   /\ exists t, previewTime (fst (step hovering move)) = Fin t /\ 0 <= t <= 200)
  /\ (phase hovered = Hovering
      /\ phase (fst (step hovered leave)) = Idle
      /\ previewTime (fst (step hovered leave)) = Fin (-1)).
Proof.
  cbv zeta.
  assert (E : previewTime
                (fst (step {| isDragging := false; isHovering := true;
                              hoverTime := Fin 0; previewTime := Fin (-1) |}
                        (measuredInput exampleProps exampleRect
                           (mousemove true (Fin 50))))) = Fin 100).
  { cbn; js_unfold; rcases; f_equal; lra. }
  split.
  - split; [exact E |].
    destruct (preview_invariant 200
                {| isDragging := false; isHovering := true;
                   hoverTime := Fin 0; previewTime := Fin (-1) |}
                (measuredInput exampleProps exampleRect (mousemove true (Fin 50))))
      as (_ & _ & H & _).
    + lra.
    + reflexivity.
    + exists 0, 100; repeat split; lra.
    + exists 50; reflexivity.
    + intros Hp; exfalso; apply Hp; reflexivity.
    + apply H; rewrite E; apply Fin_neq; lra.
  - split; [reflexivity |]; split; [reflexivity |].
    destruct (preview_invariant 200
                {| isDragging := false; isHovering := true;
                   hoverTime := Fin 100; previewTime := Fin 100 |}
                (measuredInput exampleProps exampleRect mouseleave))
      as (_ & _ & _ & H).
    + lra.
    + reflexivity.
    + exists 0, 100; repeat split; lra.
    + exact I.
    + intros _; split; [cbn; discriminate |].
      exists 100; split; [reflexivity | lra].
    + apply H; [cbn; discriminate | reflexivity].
Defined.


Lemma hover_never_seeks_witness :
  snd (run initialState
         (map (measuredInput exampleProps exampleRect)
            [mouseenter; mousemove true (Fin 50); mouseleave; mouseup]))
  = [].
Proof.
  destruct (hover_never_seeks
              (map (measuredInput exampleProps exampleRect)
                 [mouseenter; mousemove true (Fin 50); mouseleave; mouseup]))
    as [H _]; [reflexivity | exact H].
Defined.

Lemma dragging_preview_time_witness :
  let pressed := {| isDragging := true; isHovering := true;
                    hoverTime := Fin 100; previewTime := Fin 100 |} in
  previewTime
    (fst (run pressed
            (map (measuredInput exampleProps exampleRect)
               [mousemove true (Fin 70); touchmove (Fin 10)])))
  = Fin 100.
Proof.
  cbv zeta.
  destruct (dragging_preview_time
              {| isDragging := true; isHovering := true;
                 hoverTime := Fin 100; previewTime := Fin 100 |}
              (map (measuredInput exampleProps exampleRect)
                 [mousemove true (Fin 70); touchmove (Fin 10)])
              (measuredInput exampleProps exampleRect mouseup))
    as (_ & _ & H & _); [reflexivity | reflexivity | reflexivity | exact H].
Defined.

(** * Further properties of the scrubber *)

(** ** The value passed to [onSeek] *)

Lemma handleSeek_finite (P : Props) (l w d x : R) :
  0 < w -> 0 <= d -> duration P = Fin d ->
  exists y,
    handleSeek P (Some {| left := Fin l; width := Fin w |}) (Fin x)
    = [onSeek (Fin (y * d))]
    /\ Spec.clamp (Fin ((x - l) / w)) 0 1 = Fin y
    /\ 0 <= y <= 1 /\ 0 <= y * d <= d.
Proof.
  intros Hw Hd HP.
  destruct (pixelToTime_finite (x - l) w d Hw Hd) as (y & Ht & Hc & Hy & Hb).
  exists y; rewrite handleSeek_pixelToTime; cbn [left width].
  rewrite HP, sub_Fin, Ht.
  rewrite div_Fin in Hc by lra; auto.
Qed.

Lemma seeks_handleSeek_within (d : R) (P : Props) (c : option DOMRect)
      (x : number) :
  0 <= d -> duration P = Fin d -> positiveWidth c -> (exists r, x = Fin r) ->
  Forall (within 0 d) (seeks (handleSeek P c x)).
Proof.
  intros Hd HP Hc (r & ->); destruct c as [[l w] |]; [| constructor].
  destruct Hc as (l' & w' & Hl & Hw & Hpos); cbn in Hl, Hw; subst l w.
  destruct (handleSeek_finite P l' w' d r Hpos Hd HP) as (y & -> & _ & _ & Hb).
  repeat constructor; exists (y * d); auto.
Qed.

Lemma step_seeks_within (d : R) (st : State) (i : Input) :
  0 <= d -> goodInput d i -> Forall (within 0 d) (snd (step st i)).
Proof.
  intros Hd (HP & Hc & Hx); unfold step, dispatch, documentListeners.
  cbn [snd].
  destruct (event i) as [| | over x | x | x | x | |]; cbn in Hx;
    unfold handleMouseDown, handleTouchStart, handleInteractionStart,
      handleGlobalMouseMove, handleTouchMove, handleInteractionMove;
    try (destruct (isDragging st)); try (constructor; fail);
    rewrite ?seeks_app, ?seeks_handleMouseMove;
    try (replace (seeks (if over then _ else [])) with (@nil number)
          by (destruct over; [rewrite seeks_handleMouseMove |]; reflexivity));
    cbn [app seeks flat_map];
    try (apply (seeks_handleSeek_within d); assumption);
    try constructor.
Qed.

(** X1.  Every [onSeek] call of a run carries a finite time between 0 and the
    duration, for a finite duration [d >= 0], containers of positive width
    and finite pointer positions. *)
Theorem onSeek_within_duration (d : R) (st : State) (inputs : list Input) :
  0 <= d -> Forall (goodInput d) inputs ->
  Forall (within 0 d) (snd (run st inputs)).
Proof.
  intros Hd Hall; revert st.
  induction Hall as [| i rest Hi _ IH]; intros st.
  - constructor.
  - rewrite run_cons; cbn [snd].
    apply Forall_app; split; [apply step_seeks_within; assumption | apply IH].
Qed.

(** X2.  The time of a pointer is monotone in its position, 0 at or left of the
    left edge of the container, the duration at or right of its right
    edge, and linear in between. *)
Theorem seek_time_monotone (P : Props) (l w d x1 x2 : R) :
  0 < w -> 0 <= d -> duration P = Fin d -> x1 <= x2 ->
  let rect := {| left := Fin l; width := Fin w |} in
  exists t1 t2,
    handleSeek P (Some rect) (Fin x1) = [onSeek (Fin t1)]
    /\ handleSeek P (Some rect) (Fin x2) = [onSeek (Fin t2)]
    /\ t1 <= t2
    /\ (x1 <= l -> t1 = 0)
    /\ (l + w <= x1 -> t1 = d)
    /\ (l <= x1 <= l + w -> t1 = (x1 - l) / w * d).
Proof.
  intros Hw Hd HP Hx rect.
  destruct (handleSeek_finite P l w d x1 Hw Hd HP) as (y1 & E1 & C1 & Hy1 & _).
  destruct (handleSeek_finite P l w d x2 Hw Hd HP) as (y2 & E2 & C2 & Hy2 & _).
  exists (y1 * d), (y2 * d); split; [exact E1 | split; [exact E2 |]].
  assert (Hinv : 0 < / w) by (apply Rinv_0_lt_compat; exact Hw).
  assert (Hone : w * / w = 1) by (field; lra).
  assert (Hq : (x1 - l) / w <= (x2 - l) / w) by (unfold Rdiv; nra).
  destruct (clamp_Fin 0 1 ((x1 - l) / w)) as (z1 & Z1 & _ & Hmid1 & Hlo1 & Hhi1);
    [lra |].
  destruct (clamp_Fin 0 1 ((x2 - l) / w)) as (z2 & Z2 & _ & Hmid2 & Hlo2 & Hhi2);
    [lra |].
  assert (z1 = y1) by congruence; assert (z2 = y2) by congruence; subst z1 z2.
  assert (Hmono : y1 <= y2).
  { destruct (Rlt_dec ((x1 - l) / w) 0) as [A | A];
      destruct (Rlt_dec 1 ((x1 - l) / w)) as [B | B];
      destruct (Rlt_dec ((x2 - l) / w) 0) as [A' | A'];
      destruct (Rlt_dec 1 ((x2 - l) / w)) as [B' | B'];
      try lra;
      try (rewrite (Hlo1 A)); try (rewrite (Hhi1 B));
      try (rewrite (Hlo2 A')); try (rewrite (Hhi2 B'));
      try (rewrite Hmid1 by lra); try (rewrite Hmid2 by lra); lra. }
  split; [nra |].
  repeat split.
  - intros Hle.
    assert (Hq1 : (x1 - l) / w <= 0) by (unfold Rdiv; nra).
    destruct (Rlt_dec ((x1 - l) / w) 0) as [A | A];
      [rewrite (Hlo1 A) | rewrite Hmid1 by lra]; nra.
  - intros Hge.
    assert (Hq1 : 1 <= (x1 - l) / w) by (unfold Rdiv; nra).
    destruct (Rlt_dec 1 ((x1 - l) / w)) as [B | B];
      [rewrite (Hhi1 B) | rewrite Hmid1 by lra]; nra.
  - intros [Hlo Hhi].
    assert (Hq1 : 0 <= (x1 - l) / w <= 1) by (unfold Rdiv; split; nra).
    rewrite (Hmid1 Hq1); reflexivity.
Qed.

(** ** The waveform series *)

Lemma amplitudeOf_at_least (bars i : Z) (noise peak : R) :
  within 0.3 1 (amplitudeOf bars i noise peak).
Proof.
  rewrite amplitudeOf_clamp.
  set (v := Rabs ((waves bars i + noise) * envelope bars i + peak) + 0.3).
  assert (Hv : 0.3 <= v) by (unfold v; pose proof (Rabs_pos
    ((waves bars i + noise) * envelope bars i + peak)); lra).
  destruct (clamp_Fin 0.1 1.0 v) as (y & Hy & Hr & Hmid & _ & Hhi); [lra |].
  exists y; split; [exact Hy |].
  destruct (Rlt_dec 1.0 v) as [H | H]; [rewrite (Hhi H) | rewrite Hmid]; lra.
Qed.

(** X3.  Every amplitude the generator pushes is at least 0.3: 0.3 is added to
    an absolute value, so the lower bound 0.1 of the clamp is never the
    result. *)
Theorem generate_at_least_0_3 (rng : nat -> R) (barCount : Z) (k : nat) :
  Forall (within 0.3 1) (fst (generate rng barCount k)).
Proof.
  destruct (Z_lt_le_dec 0 barCount) as [Hpos | Hneg].
  - unfold generate.
    destruct (loop_appends rng barCount (Z.to_nat barCount) ltac:(lia) 0%Z [] k)
      as (tail & Htail & Hlen & _ & Hnth & _).
    rewrite Htail; cbn [app].
    apply Forall_forall; intros a Ha.
    apply (In_nth _ _ NaN) in Ha as (j & Hj & <-).
    destruct (Hnth j) as (k' & ->); [lia |].
    apply amplitudeOf_at_least.
  - unfold generate; replace (Z.to_nat barCount) with 0%nat by lia.
    constructor.
Qed.

(** ** The colours along the waveform *)

Lemma hoverProgress_is_finite (c d t : R) (st : State) :
  previewTime st = Fin t ->
  exists h, hoverProgress {| currentTime := Fin c; duration := Fin d |} st = Fin h.
Proof.
  intros Ht; unfold hoverProgress, gt, lt; cbn [currentTime duration].
  rewrite Ht.
  destruct (Rltb 0 d) eqn:E; cbn [andb]; [| eexists; reflexivity].
  apply Rltb_lt in E.
  destruct (Fin t >=? Fin 0)%js; [| eexists; reflexivity].
  rewrite div_Fin by lra; eexists; reflexivity.
Qed.

(** X4.  The colours come in three zones, in this order from the left: played
    bars, preview bars, unplayed bars.  For finite times, whatever their
    values: a bar left of a played bar is played, a bar right of an
    unplayed bar is unplayed; and the first bar is played whenever the
    current time is not negative. *)
Theorem colour_zones (c d t : R) (st : State) (N i j : nat) :
  previewTime st = Fin t -> (i <= j)%nat -> (j < N)%nat ->
  let P := {| currentTime := Fin c; duration := Fin d |} in
  (isPlayed (barFillStyle P st N j) = true ->
   isPlayed (barFillStyle P st N i) = true)
  /\ (barFillStyle P st N i = unplayed -> barFillStyle P st N j = unplayed)
  /\ (0 <= c -> isPlayed (barFillStyle P st N 0) = true).
Proof.
  intros Ht Hij Hj P.
  destruct (progress_is_finite c d) as (q & Hq); fold P in Hq.
  destruct (hoverProgress_is_finite c d t st Ht) as (h & Hh); fold P in Hh.
  destruct (barPosition_finite N i) as [Hpi _]; [lia |].
  destruct (barPosition_finite N j Hj) as [Hpj _].
  pose proof (barPosition_le N i j Hij Hj) as Hle.
  rewrite (barFillStyle_cases P st N i q h _ Hq Hh Hpi).
  rewrite (barFillStyle_cases P st N j q h _ Hq Hh Hpj).
  set (ri := INR i / INR N) in *; set (rj := INR j / INR N) in *.
  clearbody ri rj.
  split; [| split].
  - unfold Rleb, Rltb.
    destruct (Rle_dec 0 h), (Rle_dec rj h), (Rlt_dec q rj), (Rle_dec rj q),
      (Rle_dec ri h), (Rlt_dec q ri), (Rle_dec ri q);
      cbn; intros; try reflexivity; try discriminate; lra.
  - unfold Rleb, Rltb.
    destruct (Rle_dec 0 h), (Rle_dec rj h), (Rlt_dec q rj), (Rle_dec rj q),
      (Rle_dec ri h), (Rlt_dec q ri), (Rle_dec ri q);
      cbn; intros; try reflexivity; try discriminate; lra.
  - intros Hc.
    destruct (barPosition_finite N 0) as [Hp0 _]; [lia |].
    rewrite (barFillStyle_cases P st N 0%nat q h _ Hq Hh Hp0).
    assert (H0 : INR 0 / INR N = 0) by (cbn [INR]; unfold Rdiv; ring).
    rewrite H0.
    assert (Hq0 : 0 <= q).
    { revert Hq; unfold progress, P, gt, lt; cbn [currentTime duration].
      destruct (Rltb 0 d) eqn:E; [| intros [= <-]; lra].
      apply Rltb_lt in E; rewrite div_Fin by lra; intros [= <-].
      assert (0 < / d) by (apply Rinv_0_lt_compat; exact E).
      unfold Rdiv; nra. }
    rewrite (Rltb_false q 0), (Rleb_true 0 q) by lra.
    rewrite andb_false_r; reflexivity.
Qed.

(** ** The rectangles of the bars *)

(** X5.  For an amplitude of the series and a container of finite width [w >= 0]:
    a bar is centred on the middle line [y = 40] of the canvas, between 3.5
    and 35 pixels high, and inside the 80 pixels of the canvas; it starts
    at [i * w / N]; when every bar has at least one pixel ([N <= w]) it
    ends before the next bar starts and inside the container, and when the
    bars have less than two pixels each it is one pixel wide. *)
Theorem bar_rectangle (w v : R) (N i : nat) :
  0 <= w -> 0.1 <= v <= 1 -> (i < N)%nat ->
  let b := barFillRect (Fin w) N (Fin v) i in
  exists x y bw h,
    barX b = Fin x /\ barY b = Fin y /\ barW b = Fin bw /\ barH b = Fin h
    /\ h = v * 35 /\ 3.5 <= h <= 35
    /\ y + h / 2 = 40 /\ 0 <= y /\ y + h <= 80
    /\ x = INR i * (w / INR N) /\ 0 <= x /\ 1 <= bw
    /\ (INR N <= w -> x + bw <= INR (S i) * (w / INR N) <= w)
    /\ (w <= 2 * INR N -> bw = 1).
Proof.
  intros Hw Hv Hi b.
  assert (HN : 0 < INR N) by (apply lt_0_INR; lia).
  assert (Hi0 : 0 <= INR i) by apply pos_INR.
  assert (HiN : INR i + 1 <= INR N).
  { rewrite <- S_INR; apply le_INR; lia. }
  assert (Hinv : 0 < / INR N) by (apply Rinv_0_lt_compat; exact HN).
  assert (Hone : INR N * / INR N = 1) by (field; lra).
  set (q := w / INR N).
  assert (Hq : q * INR N = w) by (unfold q; field; lra).
  assert (Hq0 : 0 <= q) by (unfold q, Rdiv; nra).
  assert (Eb : b = {| barX := Fin (INR i * q);
                      barY := Fin (40 - v * 35 / 2);
                      barW := Math_max 1 (Fin (q - 1));
                      barH := Fin (v * 35) |}).
  { unfold b, barFillRect; cbv zeta.
    rewrite div_Fin by lra; fold q; cbn [mul].
    rewrite div_Fin, !sub_Fin by lra; reflexivity. }
  assert (Hbw : exists bw, Math_max 1 (Fin (q - 1)) = Fin bw /\ 1 <= bw
                           /\ (1 <= q -> bw <= q) /\ (q <= 2 -> bw = 1)).
  { unfold Math_max, lt, Rltb.
    destruct (Rlt_dec 1 (q - 1)); eexists; (split; [reflexivity |]);
      repeat split; intros; lra. }
  destruct Hbw as (bw & Ebw & Hbw1 & Hbwq & Hbw2).
  exists (INR i * q), (40 - v * 35 / 2), bw, (v * 35).
  rewrite Eb; cbn [barX barY barW barH].
  split; [reflexivity |].
  split; [reflexivity |].
  split; [exact Ebw |].
  split; [reflexivity |].
  split; [reflexivity |].
  split; [lra |].
  split; [lra |].
  split; [lra |].
  split; [lra |].
  split; [reflexivity |].
  split; [nra |].
  split; [exact Hbw1 |].
  split.
  - intros HNw.
    assert (H1q : 1 <= q) by nra.
    rewrite S_INR; split; [specialize (Hbwq H1q); nra | nra].
  - intros H2N; apply Hbw2; nra.
Qed.

(** ** The playhead, the hover line and the tooltip *)

(** The steps of [drawWaveform] after the bars, and the tooltip. *)
Lemma overlay_steps_in_range (c d w : R) (st : State) :
  0 <= c <= d -> 0 <= w -> PreviewInv d st ->
  let P := {| currentTime := Fin c; duration := Fin d |} in
  (0 < d -> exists ph x, playhead P st (Fin w) = Some ph
                         /\ playheadX ph = Fin x /\ 0 <= x <= w)
  /\ (d = 0 -> playhead P st (Fin w) = None)
  /\ (forall hx, hoverLine P st (Fin w) = Some hx -> within 0 w hx)
  /\ (forall pos label,
        tooltip P st = Some (pos, label) ->
        exists t, previewTime st = Fin t /\ 0 <= t <= d
                  /\ pos = Fin (t / d * 100) /\ 0 <= t / d * 100 <= 100
                  /\ label = formatTime (Fin t)
                  /\ hoverLine P st (Fin w) = Some (Fin (t / d * w))).
Proof.
  intros Hc Hw Hinv P; subst P.
  assert (Hfrac : forall t, 0 < d -> 0 <= t <= d -> 0 <= t / d <= 1).
  { intros t Hd Ht.
    assert (0 < / d) by (apply Rinv_0_lt_compat; exact Hd).
    assert (d * / d = 1) by (field; lra).
    unfold Rdiv; split; nra. }
  (* what a non-negative preview time is, under the invariant *)
  assert (Hprev : (previewTime st >=? Fin 0)%js = true ->
                  exists t, previewTime st = Fin t /\ 0 <= t <= d).
  { intros Hge; apply Hinv.
    intros E; rewrite E in Hge; unfold ge, le in Hge.
    apply Rleb_le in Hge; lra. }
  split; [| split; [| split]].
  - intros Hd; unfold playhead, progress, gt, lt; cbn [currentTime duration].
    rewrite Rltb_true by lra.
    rewrite div_Fin by lra; cbn [mul].
    eexists; exists (c / d * w); split; [reflexivity |].
    split; [reflexivity |].
    pose proof (Hfrac c Hd Hc); split; nra.
  - intros ->; unfold playhead, gt, lt; cbn [duration].
    rewrite Rltb_false by lra; reflexivity.
  - intros hx; unfold hoverLine, gt, lt; cbn [duration].
    destruct (isHovering st); [| discriminate].
    destruct (previewTime st >=? Fin 0)%js eqn:Hge; [| discriminate].
    destruct (Rltb 0 d) eqn:Hd; [| discriminate].
    apply Rltb_lt in Hd.
    destruct (Hprev eq_refl) as (t & Et & Ht).
    cbn [andb]; rewrite Et, div_Fin by lra; cbn [mul].
    intros [= <-]; exists (t / d * w); split; [reflexivity |].
    pose proof (Hfrac t Hd Ht); split; nra.
  - intros pos label; unfold tooltip, hoverLine, gt, lt; cbn [duration].
    destruct (isHovering st); [| discriminate].
    destruct (isDragging st); [discriminate |].
    destruct (previewTime st >=? Fin 0)%js eqn:Hge; [| discriminate].
    destruct (Rltb 0 d) eqn:Hd; [| discriminate].
    apply Rltb_lt in Hd.
    destruct (Hprev eq_refl) as (t & Et & Ht).
    cbn [andb negb]; rewrite Et, div_Fin by lra; cbn [mul].
    intros [= <- <-]; exists t.
    pose proof (Hfrac t Hd Ht).
    repeat split; try reflexivity; try lra; nra.
Qed.

(** X6.  Within the player's range and the invariant of the interaction
    state, over a container of finite width [w >= 0]: [drawWaveform] draws
    nothing when the canvas, the container or the 2D context is missing or
    the waveform data is empty; otherwise it draws the playhead exactly
    when the duration is positive, inside the container, and the hover
    line, if any, inside the container; and whenever the tooltip is
    rendered it sits between 0 and 100 per cent, shows [formatTime] of a
    preview time between 0 and the duration, and such a draw puts the hover
    line at the same fraction of the width. *)
Theorem overlays_in_range (c d w l : R) (st : State) (canvas ctx : bool)
        (waveformData : list number) :
  0 <= c <= d -> 0 <= w -> PreviewInv d st ->
  let P := {| currentTime := Fin c; duration := Fin d |} in
  let rect := {| left := Fin l; width := Fin w |} in
  let drawn := drawOverlays P st canvas (Some rect) ctx waveformData in
  (canvas = false \/ ctx = false \/ waveformData = [] -> drawn = None)
  /\ drawOverlays P st canvas None ctx waveformData = None
  /\ (canvas = true -> ctx = true -> waveformData <> [] ->
      exists ph hl,
        drawn = Some (ph, hl)
        /\ (0 < d -> exists head x, ph = Some head
                                    /\ playheadX head = Fin x /\ 0 <= x <= w)
        /\ (d = 0 -> ph = None)
        /\ (forall hx, hl = Some hx -> within 0 w hx)
        /\ (forall pos label,
              tooltip P st = Some (pos, label) ->
              exists t, previewTime st = Fin t /\ hl = Some (Fin (t / d * w))))
  /\ (forall pos label,
        tooltip P st = Some (pos, label) ->
        exists t, previewTime st = Fin t /\ 0 <= t <= d
                  /\ pos = Fin (t / d * 100) /\ 0 <= t / d * 100 <= 100
                  /\ label = formatTime (Fin t)).
Proof.
  intros Hc Hw Hinv P rect drawn.
  destruct (overlay_steps_in_range c d w st Hc Hw Hinv)
    as (Hhead & Hnone & Hline & Htip); fold P in Hhead, Hnone, Hline, Htip.
  split; [| split; [reflexivity | split]].
  - unfold drawn, drawOverlays.
    intros [-> | [-> | ->]]; cbn [negb orb List.length Nat.eqb];
      rewrite ?orb_true_r; try reflexivity.
    destruct (negb canvas || _); reflexivity.
  - intros -> -> Hdata; unfold drawn, drawOverlays; cbn [negb orb rect width].
    destruct waveformData as [| a data]; [contradiction |].
    cbn [List.length Nat.eqb].
    eexists; eexists; split; [reflexivity |].
    split; [exact Hhead |]; split; [exact Hnone |]; split; [exact Hline |].
    intros pos label Ht; destruct (Htip pos label Ht) as (t & Et & _ & _ & _ & _ & Hl).
    exists t; auto.
  - intros pos label Ht; destruct (Htip pos label Ht) as (t & Et & Hb & Hp & Hr & Hlab & _).
    exists t; auto.
Qed.

(** Events other than a hover move keep a cleared preview time cleared. *)
Lemma step_keeps_cleared (st : State) (i : Input) :
  previewTime st = Fin (-1) -> isHoverMove (event i) = false ->
  previewTime (fst (step st i)) = Fin (-1).
Proof.
  intros Hp Hm; unfold step, dispatch, documentListeners; cbn [fst].
  destruct (event i) as [| | over x | x | x | x | |];
    unfold handleMouseDown, handleTouchStart, handleInteractionStart,
      handleGlobalMouseMove, handleTouchMove, handleInteractionMove,
      onMouseEnter, onMouseLeave, handleEnd;
    try (change (setIsDragging true :: ?l) with ([setIsDragging true] ++ l);
         rewrite commit_app, commit_handleSeek);
    try (destruct (isDragging st); rewrite ?commit_handleSeek);
    try (cbn; assumption); try reflexivity.
  - destruct over; [discriminate Hm |].
    cbn [app]; rewrite commit_handleSeek; exact Hp.
  - destruct over; [discriminate Hm | exact Hp].
Qed.

Lemma run_keeps_cleared (st : State) (inputs : list Input) :
  previewTime st = Fin (-1) -> noHoverMove inputs = true ->
  previewTime (fst (run st inputs)) = Fin (-1).
Proof.
  revert st; induction inputs as [| i rest IH]; intros st Hp Hno.
  - exact Hp.
  - cbn in Hno; apply andb_true_iff in Hno as [Hi Hrest].
    apply negb_true_iff in Hi.
    rewrite run_cons; cbn [fst]; apply IH; [| exact Hrest].
    apply step_keeps_cleared; assumption.
Qed.

(** X7.  Once the pointer has left the container, nothing of the hover preview
    is drawn until the pointer moves over the container again: after a
    [mouseleave] and any events that are not moves over the container,
    there is no hover line, no tooltip and no bar in the preview colour,
    whatever the props. *)
Theorem leave_hides_preview (st : State) (leave : Input) (inputs : list Input) :
  event leave = mouseleave -> noHoverMove inputs = true ->
  let st' := fst (run st (leave :: inputs)) in
  previewTime st' = Fin (-1)
  /\ forall (P : Props) (w : number) (N i : nat),
       hoverLine P st' w = None /\ tooltip P st' = None
       /\ barFillStyle P st' N i <> hoverPreview.
Proof.
  intros Hl Hno st'.
  assert (Hp : previewTime st' = Fin (-1)).
  { unfold st'; rewrite run_cons; cbn [fst].
    apply run_keeps_cleared; [| exact Hno].
    unfold step, dispatch; rewrite Hl; reflexivity. }
  split; [exact Hp |].
  assert (Hge : (previewTime st' >=? Fin 0)%js = false).
  { rewrite Hp; unfold ge, le; apply Rleb_false; lra. }
  intros P w N i; split; [| split].
  - unfold hoverLine; rewrite Hge, andb_false_r; reflexivity.
  - unfold tooltip; rewrite Hge, andb_false_r; reflexivity.
  - unfold barFillStyle, hoverProgress; cbv zeta.
    rewrite Hge, andb_false_r.
    replace (Fin (-1) >=? Fin 0)%js with false
      by (unfold ge, le; symmetry; apply Rleb_false; lra).
    cbn [andb]; destruct (_ <=? _)%js; discriminate.
Qed.

(** ** The two flags *)

Lemma step_flags (st : State) (i : Input) :
  isDragging (fst (step st i))
  = (if isPointerDown (event i) then true
     else if isPointerUp (event i) then false else isDragging st)
  /\ isHovering (fst (step st i))
     = (if isPointerEnter (event i) then true
        else if isPointerLeave (event i) then false else isHovering st).
Proof.
  unfold step, dispatch, documentListeners; cbn [fst].
  destruct (event i) as [| | over x | x | x | x | |];
    cbn [isPointerDown isPointerUp isPointerEnter isPointerLeave];
    unfold handleMouseDown, handleTouchStart, handleInteractionStart,
      handleGlobalMouseMove, handleTouchMove, handleInteractionMove,
      onMouseEnter, onMouseLeave, handleEnd;
    try (change (setIsDragging true :: ?l) with ([setIsDragging true] ++ l);
         rewrite commit_app, commit_handleSeek);
    try (cbn; split; reflexivity).
  - rewrite commit_app.
    replace (commit (commit st _) (if isDragging st then _ else []))
      with (commit st (if over then handleMouseMove (props i) st (container i) x
                       else []))
      by (destruct (isDragging st); [rewrite commit_handleSeek |]; reflexivity).
    unfold handleMouseMove.
    destruct over, (negb (isDragging st) && isHovering st), (container i);
      split; reflexivity.
  - destruct (isDragging st) eqn:E; rewrite ?commit_handleSeek; auto.
  - destruct (isDragging st) eqn:E; cbn; auto.
  - destruct (isDragging st) eqn:E; cbn; auto.
Qed.

(** X8.  After any sequence of events the component is dragging exactly when
    the last press or release was a press, and hovering exactly when the
    last enter or leave was an enter (with the flags it started from when
    there was none); moves, and the position of the pointer, the props and
    the container play no part. *)
Theorem flags_follow_last_event (st : State) (inputs : list Input) :
  isDragging (fst (run st inputs))
  = lastOf isPointerDown isPointerUp inputs (isDragging st)
  /\ isHovering (fst (run st inputs))
     = lastOf isPointerEnter isPointerLeave inputs (isHovering st).
Proof.
  revert st; induction inputs as [| i rest IH]; intros st.
  - split; reflexivity.
  - rewrite run_cons; cbn [fst]; unfold lastOf; cbn [fold_left].
    destruct (step_flags st i) as [Hd Hh].
    destruct (IH (fst (step st i))) as [IHd IHh].
    rewrite IHd, IHh, Hd, Hh; split; reflexivity.
Qed.

(** ** [formatTime] on every positive time *)

Lemma two_digit_seconds (r : Z) :
  (0 <= r < 60)%Z ->
  String.length (padStart 2 "0" (Z_toString r)) = 2%nat.
Proof.
  intros Hr.
  assert (Hall : forallb (fun n => Nat.eqb (String.length
                   (padStart 2 "0" (Z_toString (Z.of_nat n)))) 2)
                   (seq 0 60) = true) by (vm_compute; reflexivity).
  rewrite forallb_forall in Hall.
  specialize (Hall (Z.to_nat r)); rewrite Z2Nat.id in Hall by lia.
  apply Nat.eqb_eq, Hall, in_seq; lia.
Qed.

(** X9.  For a positive number of seconds below [2^53], [formatTime] prints
    the whole minutes [m], a colon and the seconds [r] on two characters,
    where [0 <= r <= 59] and [60 * m + r] is the floor of the time.  (Below
    [2^53] the quotient by 60 that the source computes on doubles has the
    floor of the exact quotient, and the remainder by 60 is exact; from
    [2^53] on the rounding of the quotient can change the minutes.) *)
Theorem formatTime_minutes_seconds (s : R) :
  0 < s -> s < IZR (2 ^ 53) ->
  exists m r : Z,
    formatTime (Fin s)
    = Some (Z_toString m ++ ":" ++ padStart 2 "0" (Z_toString r))%string
    /\ (0 <= m)%Z /\ (0 <= r <= 59)%Z
    /\ (60 * m + r)%Z = Zfloor s
    /\ String.length (padStart 2 "0" (Z_toString r)) = 2%nat.
Proof.
  intros Hpos Hsmall.
  assert (Hbig : s < 60 * IZR (10 ^ 21)).
  { assert (IZR (2 ^ 53) <= 60 * IZR (10 ^ 21)).
    { rewrite <- mult_IZR; apply IZR_le; vm_compute; discriminate. }
    lra. }
  set (m := Zfloor (s / 60)).
  pose proof (Zfloor_bound (s / 60)) as Hm; fold m in Hm.
  set (r := Zfloor (s - 60 * IZR m)).
  pose proof (Zfloor_bound (s - 60 * IZR m)) as Hr; fold r in Hr.
  assert (Hm0 : (0 <= m)%Z).
  { unfold m; apply Zfloor_lub; lra. }
  assert (Hmbig : (m < 10 ^ 21)%Z).
  { apply lt_IZR; lra. }
  assert (Hr0 : (0 <= r)%Z) by (unfold r; apply Zfloor_lub; lra).
  assert (Hr60 : (r < 60)%Z) by (apply lt_IZR; lra).
  exists m, r.
  split; [apply formatTime_positive; try assumption; lia |].
  split; [exact Hm0 |]; split; [lia |].
  split; [| apply two_digit_seconds; lia].
  symmetry; apply Zfloor_eq.
  rewrite plus_IZR, mult_IZR; lra.
Qed.

(** * Properties of the search bar *)

Module SearchBarProperties.

Import SearchBar.

#[local] Arguments isWhiteSpace : simpl never.
#[local] Arguments lit : simpl never.

(** ** Blank strings and [trim] *)

Lemma trimStart_blank (s : str) : blank s = true -> trimStart s = [].
Proof.
  induction s as [| c t IH]; [reflexivity |].
  cbn; destruct (isWhiteSpace c); [exact IH | discriminate].
Qed.

Lemma trimStart_head (s : str) :
  trimStart s = []
  \/ exists c t, trimStart s = c :: t /\ isWhiteSpace c = false.
Proof.
  induction s as [| c t IH]; [left; reflexivity |].
  cbn; destruct (isWhiteSpace c) eqn:E; [exact IH |].
  right; exists c, t; auto.
Qed.

Lemma trimStart_nil (s : str) : trimStart s = [] -> blank s = true.
Proof.
  induction s as [| c t IH]; [reflexivity |].
  cbn; destruct (isWhiteSpace c); [exact IH | discriminate].
Qed.

Lemma blank_app (a b : str) : blank (a ++ b) = blank a && blank b.
Proof. apply forallb_app. Qed.

Lemma blank_rev (s : str) : blank (rev s) = blank s.
Proof.
  induction s as [| c t IH]; [reflexivity |].
  cbn [rev]; rewrite blank_app, IH; cbn.
  rewrite andb_true_r; apply andb_comm.
Qed.

(** A string that starts with a character that is not white space is not
    blank. *)
Lemma not_blank_head (c : N) (t : str) :
  isWhiteSpace c = false -> blank (c :: t) = false.
Proof. intros H; cbn; rewrite H; reflexivity. Qed.

Lemma trim_nil_iff (s : str) : trim s = [] <-> blank s = true.
Proof.
  unfold trim, trimEnd; split.
  - intros H.
    assert (H1 : trimStart (rev (trimStart s)) = []).
    { destruct (trimStart (rev (trimStart s))); [reflexivity |].
      apply (f_equal (@List.length N)) in H.
      rewrite length_rev in H; discriminate. }
    apply trimStart_nil in H1; rewrite blank_rev in H1.
    destruct (trimStart_head s) as [E | (c & t & E & Hc)].
    + apply trimStart_nil; exact E.
    + rewrite E, (not_blank_head c t Hc) in H1; discriminate.
  - intros H; rewrite (trimStart_blank s H); reflexivity.
Qed.

(** The result of [trim], when not empty, is not blank. *)
Lemma trim_not_blank (s : str) : nonEmpty (trim s) = true -> blank (trim s) = false.
Proof.
  unfold trim, trimEnd; intros H.
  destruct (trimStart_head (rev (trimStart s))) as [E | (c & t & E & Hc)].
  - rewrite E in H; discriminate.
  - rewrite E, blank_rev; apply not_blank_head; exact Hc.
Qed.

Lemma nonEmpty_trim (s : str) : nonEmpty (trim s) = negb (blank s).
Proof.
  destruct (blank s) eqn:E.
  - apply trim_nil_iff in E; rewrite E; reflexivity.
  - destruct (trim s) eqn:T; [| reflexivity].
    apply trim_nil_iff in T; congruence.
Qed.

(** ** Removing duplicates *)

Lemma setAdd_fold_prefix (l acc : list str) :
  exists rest, fold_left setAdd l acc = acc ++ rest.
Proof.
  revert acc; induction l as [| x l IH]; intros acc.
  - exists []; cbn; rewrite app_nil_r; reflexivity.
  - cbn [fold_left]; unfold setAdd at 2.
    destruct (in_dec str_eq_dec x acc); [apply IH |].
    destruct (IH (acc ++ [x])) as (rest & ->).
    exists (x :: rest); rewrite <- app_assoc; reflexivity.
Qed.

Lemma setAdd_fold_NoDup (l acc : list str) :
  NoDup acc -> NoDup (fold_left setAdd l acc).
Proof.
  revert acc; induction l as [| x l IH]; intros acc Hacc; [exact Hacc |].
  cbn [fold_left]; apply IH; unfold setAdd.
  destruct (in_dec str_eq_dec x acc) as [Hin | Hnot]; [exact Hacc |].
  apply NoDup_app; [exact Hacc | repeat constructor; intros [] |].
  intros y Hy [<- | []]; contradiction.
Qed.

Lemma setAdd_fold_In (l acc : list str) (x : str) :
  In x (fold_left setAdd l acc) -> In x acc \/ In x l.
Proof.
  revert acc; induction l as [| y l IH]; intros acc H; [left; exact H |].
  cbn [fold_left] in H; apply IH in H as [H | H]; [| right; right; exact H].
  unfold setAdd in H; destruct (in_dec str_eq_dec y acc); [left; exact H |].
  apply in_app_or in H as [H | [<- | []]]; [left; exact H | right; left; reflexivity].
Qed.

(** Elements that are new and distinct are appended as they are. *)
Lemma setAdd_fold_fresh (l1 l2 acc : list str) :
  NoDup (acc ++ l1) ->
  fold_left setAdd (l1 ++ l2) acc = fold_left setAdd l2 (acc ++ l1).
Proof.
  revert acc; induction l1 as [| x l1 IH]; intros acc Hnd.
  - rewrite app_nil_r; reflexivity.
  - cbn [app fold_left]; unfold setAdd at 2.
    destruct (in_dec str_eq_dec x acc) as [Hin | Hnot].
    + exfalso; apply NoDup_remove_2 in Hnd; apply Hnd, in_or_app; left; exact Hin.
    + replace (acc ++ x :: l1) with ((acc ++ [x]) ++ l1) in *
        by (rewrite <- app_assoc; reflexivity).
      apply IH; exact Hnd.
Qed.

Lemma uniq_NoDup (l : list str) : NoDup (uniq l).
Proof. apply setAdd_fold_NoDup; constructor. Qed.

Lemma uniq_In (l : list str) (x : str) : In x (uniq l) -> In x l.
Proof. intros H; apply setAdd_fold_In in H as [[] | H]; exact H. Qed.

Lemma uniq_head (x : str) (l : list str) : exists rest, uniq (x :: l) = x :: rest.
Proof.
  unfold uniq; cbn [fold_left]; unfold setAdd at 2; cbn.
  destruct (setAdd_fold_prefix l [x]) as (rest & ->); exists rest; reflexivity.
Qed.

Lemma firstn_NoDup {A : Type} (n : nat) (l : list A) : NoDup l -> NoDup (firstn n l).
Proof.
  intros H; rewrite <- (firstn_skipn n l) in H.
  apply NoDup_app_remove_r in H; exact H.
Qed.

Lemma firstn_In {A : Type} (n : nat) (l : list A) (x : A) :
  In x (firstn n l) -> In x l.
Proof.
  intros H; rewrite <- (firstn_skipn n l); apply in_or_app; left; exact H.
Qed.

(** ** [generateSuggestions] *)

Section Suggestions.

Variable toLowerCase : str -> str.

Lemma pushed_form (input s : str) :
  In s (pushed toLowerCase input) ->
  (exists suffix, s = input ++ suffix) \/ s = lit "best " ++ input ++ lit " hits".
Proof.
  unfold pushed; cbv zeta; intros H.
  apply in_app_or in H as [[<- | []] | H];
    [left; exists []; rewrite app_nil_r; reflexivity |].
  apply in_app_or in H as [H | H].
  { apply in_flat_map in H as (k & _ & H).
    destruct (negb _); [| destruct H].
    destruct H as [<- | []]; left; eexists; reflexivity. }
  apply in_app_or in H as [H | H].
  { apply in_flat_map in H as (k & _ & H).
    destruct (includes _ _); [| destruct H].
    destruct H as [<- | [<- | []]]; [left; eexists; reflexivity | right; reflexivity]. }
  apply in_app_or in H as [H | H].
  { apply in_flat_map in H as (k & _ & H).
    destruct (includes _ _); [| destruct H].
    destruct H as [<- | [<- | []]]; left; eexists; reflexivity. }
  destruct (_ <? _)%nat; [| destruct H].
  destruct H as [<- | [<- | [<- | [<- | []]]]]; left; eexists; reflexivity.
Qed.

Lemma generateSuggestions_In (input s : str) :
  In s (generateSuggestions toLowerCase input) ->
  blank input = false /\ In s (pushed toLowerCase input).
Proof.
  unfold generateSuggestions; rewrite nonEmpty_trim, negb_involutive.
  destruct (blank input); [intros [] |].
  intros H; split; [reflexivity |].
  apply uniq_In, (firstn_In 8); exact H.
Qed.

Lemma generateSuggestions_blank (input : str) :
  blank input = true -> generateSuggestions toLowerCase input = [].
Proof.
  intros Hb; unfold generateSuggestions.
  rewrite nonEmpty_trim, Hb; reflexivity.
Qed.

Lemma generateSuggestions_head (input : str) :
  blank input = false ->
  exists rest, generateSuggestions toLowerCase input = input :: rest.
Proof.
  intros Hb; unfold generateSuggestions.
  rewrite nonEmpty_trim, Hb; cbn [negb].
  unfold pushed; cbv zeta; cbn [app].
  match goal with
  | |- context [uniq (input :: ?l)] => destruct (uniq_head input l) as (rest & ->)
  end.
  exists (firstn 7 rest); reflexivity.
Qed.

Lemma generateSuggestions_form (input s : str) :
  In s (generateSuggestions toLowerCase input) ->
  blank input = false
  /\ ((exists suffix, s = input ++ suffix)
      \/ s = lit "best " ++ input ++ lit " hits").
Proof.
  intros Hs; apply generateSuggestions_In in Hs as [Hb Hs].
  split; [exact Hb | apply pushed_form; exact Hs].
Qed.

Lemma generateSuggestions_not_blank (input : str) :
  Forall (fun s => blank s = false) (generateSuggestions toLowerCase input).
Proof.
  apply Forall_forall; intros s Hs.
  destruct (generateSuggestions_form input s Hs) as [Hb [(suffix & ->) | ->]].
  - rewrite blank_app, Hb; reflexivity.
  - rewrite !blank_app, Hb, andb_false_r; reflexivity.
Qed.

(** X10.  The suggestions for an input: at most 8, without duplicates; none for
    a blank input (empty, or white space only, which is when its [trim] is
    empty), and otherwise the input itself first; each is the input
    followed by a suffix, or ["best " + input + " hits"]; and none is
    blank. *)
Theorem suggestions_shape (input : str) :
  let l := generateSuggestions toLowerCase input in
  (List.length l <= 8)%nat
  /\ NoDup l
  /\ (trim input = [] <-> blank input = true)
  /\ (blank input = true -> l = [])
  /\ (blank input = false -> exists rest, l = input :: rest)
  /\ Forall (fun s => (exists suffix, s = input ++ suffix)
                      \/ s = lit "best " ++ input ++ lit " hits") l
  /\ Forall (fun s => blank s = false) l.
Proof.
  cbv zeta.
  split; [| split; [| split; [| split; [| split; [| split]]]]].
  - unfold generateSuggestions; destruct (negb _); [cbn; lia |].
    apply firstn_le_length.
  - unfold generateSuggestions; destruct (negb _); [constructor |].
    apply firstn_NoDup, uniq_NoDup.
  - apply trim_nil_iff.
  - apply generateSuggestions_blank.
  - apply generateSuggestions_head.
  - apply Forall_forall; intros s Hs; apply (generateSuggestions_form input s Hs).
  - apply generateSuggestions_not_blank.
Qed.

End Suggestions.

Lemma flat_map_all {A B : Type} (p : A -> bool) (f : A -> B) (l : list A) :
  forallb p l = true ->
  flat_map (fun a => if p a then [f a] else []) l = map f l.
Proof.
  induction l as [| a l IH]; [reflexivity |].
  cbn; intros H; apply andb_true_iff in H as [Ha Hl].
  rewrite Ha, (IH Hl); reflexivity.
Qed.

Lemma NoDup_musicKeywords : NoDup musicKeywords.
Proof.
  unfold musicKeywords; cbn [map].
  repeat (constructor; [vm_compute; intuition discriminate |]).
  constructor.
Qed.

Lemma NoDup_with_keywords (input : str) :
  NoDup (input :: map (fun keyword => input ++ lit " " ++ keyword) musicKeywords).
Proof.
  constructor.
  - intros H; apply in_map_iff in H as (k & Hk & _).
    rewrite <- (app_nil_r input) in Hk at 2.
    apply app_inv_head in Hk; discriminate Hk.
  - assert (Hinj : forall l, NoDup l ->
              NoDup (map (fun keyword => input ++ lit " " ++ keyword) l)).
    { induction 1 as [| k l Hk _ IH]; cbn [map]; constructor; [| exact IH].
      intros H; apply in_map_iff in H as (k' & E & Hin).
      apply app_inv_head, app_inv_head in E; subst k'; contradiction. }
    apply Hinj, NoDup_musicKeywords.
Qed.

Section PlainInput.

Variable toLowerCase : str -> str.

(** X11.  For an input that is not blank and, in lower case, contains none of
    the ten keywords, the suggestions are the input and the input followed
    by each of the first seven keywords: the limit of 8 is reached before
    the genre, mood and artist suggestions, which never show. *)
Theorem plain_input_suggestions (input : str) :
  blank input = false ->
  forallb (fun keyword => negb (includes (toLowerCase input) keyword))
          musicKeywords = true ->
  generateSuggestions toLowerCase input
  = input :: map (fun keyword => input ++ lit " " ++ keyword)
                 (firstn 7 musicKeywords).
Proof.
  intros Hb Hnone; unfold generateSuggestions.
  rewrite nonEmpty_trim, Hb; cbn [negb].
  unfold pushed; cbv zeta.
  rewrite (flat_map_all
             (fun keyword => negb (includes (toLowerCase input) keyword))
             (fun keyword => input ++ lit " " ++ keyword) musicKeywords Hnone).
  rewrite !app_assoc; rewrite <- !app_assoc.
  rewrite (app_assoc [input]).
  unfold uniq.
  rewrite setAdd_fold_fresh by (cbn [app]; apply NoDup_with_keywords).
  match goal with
  | |- context [fold_left setAdd ?l ?acc] =>
      destruct (setAdd_fold_prefix l acc) as (rest & ->)
  end.
  unfold musicKeywords; cbn [map app firstn]; reflexivity.
Qed.

End PlainInput.

(** ** The handlers *)

Section Machine.

Variable toLowerCase : str -> str.

Lemma Inv_initial : Inv initialState.
Proof.
  unfold Inv; cbn; split; [lia |]; split; [discriminate | constructor].
Qed.

Lemma nth_error_in_range {A : Type} (l : list A) (i : Z) :
  (0 <= i < Z.of_nat (List.length l))%Z ->
  exists a, nth_error l (Z.to_nat i) = Some a /\ In a l.
Proof.
  intros Hi; destruct (nth_error l (Z.to_nat i)) as [a |] eqn:E.
  - exists a; split; [reflexivity | apply (nth_error_In _ _ E)].
  - apply nth_error_None in E; lia.
Qed.

(** A state with the same suggestions and selection, and a dropdown that
    is shown only if it was, keeps the invariant. *)
Lemma Inv_keep (st st' : State) :
  Inv st ->
  selectedSuggestionIndex st' = selectedSuggestionIndex st ->
  suggestions st' = suggestions st ->
  (showSuggestions st' = true -> showSuggestions st = true) ->
  Inv st'.
Proof.
  intros (Hidx & Hshow & Hnb) Ei Es Hsh; unfold Inv; rewrite Ei, Es; auto.
Qed.

(** The cases of a step that keep the suggestions and the selection. *)
Ltac kept Hinv :=
  eexists; eexists; split; [reflexivity |]; split;
  [apply (Inv_keep _ _ Hinv);
   [reflexivity | reflexivity
    | cbn; intros H; first [discriminate H | exact H]]
  | cbn; repeat constructor].

Lemma step_Inv (st : State) (e : Event) :
  Inv st ->
  exists st' out,
    step toLowerCase st e = Some (st', out)
    /\ Inv st' /\ Forall (fun q => blank q = false) out.
Proof.
  intros Hinv; pose proof Hinv as (Hidx & Hshow & Hnb).
  assert (Hin : forall a, In a (suggestions st) -> blank a = false)
    by (apply Forall_forall; exact Hnb).
  unfold step, dispatch.
  destruct e as [value | key | index | | | | transcript].
  - (* change *)
    eexists; eexists; split; [reflexivity |].
    split; [| constructor].
    unfold handleInputChange, Inv; cbn.
    split; [lia |]; split.
    + intros H; apply andb_true_iff in H as [_ H].
      intros E; rewrite E in H; discriminate H.
    + apply generateSuggestions_not_blank.
  - (* keydown *)
    unfold handleKeyDown.
    destruct (showSuggestions st) eqn:Eshow; cbn [negb]; [| kept Hinv].
    destruct key.
    + eexists; eexists; split; [reflexivity |]; split; [| constructor].
      unfold Inv; cbn; rewrite Eshow; split; [| split; [exact Hshow | exact Hnb]].
      destruct (_ <? _)%Z eqn:E; [apply Z.ltb_lt in E |]; lia.
    + eexists; eexists; split; [reflexivity |]; split; [| constructor].
      unfold Inv; cbn; rewrite Eshow; split; [| split; [exact Hshow | exact Hnb]].
      destruct (_ >? _)%Z eqn:E; [apply Z.gtb_lt in E |]; lia.
    + destruct (selectedSuggestionIndex st >=? 0)%Z eqn:E.
      * destruct (nth_error_in_range (suggestions st) (selectedSuggestionIndex st))
          as (a & -> & Ha); [lia |].
        kept Hinv; apply Hin, Ha.
      * destruct (nonEmpty (trim (query st))) eqn:Eq; kept Hinv.
        apply trim_not_blank; exact Eq.
    + eexists; eexists; split; [reflexivity |]; split; [| constructor].
      unfold Inv; cbn; split; [lia |]; split; [discriminate | exact Hnb].
    + kept Hinv.
  - (* click *)
    destruct (showSuggestions st && _) eqn:Erendered; [| kept Hinv].
    destruct (nth_error (suggestions st) index) as [a |] eqn:Ea; kept Hinv.
    apply Hin, (nth_error_In _ _ Ea).
  - (* submit *)
    unfold handleSubmit; cbv zeta.
    destruct (nonEmpty (trim (query st))) eqn:Eq; kept Hinv.
    apply trim_not_blank; exact Eq.
  - (* focus *)
    unfold onFocus.
    destruct (_ && _) eqn:E; [| kept Hinv].
    eexists; eexists; split; [reflexivity |]; split; [| constructor].
    unfold Inv; cbn; split; [exact Hidx |]; split; [| exact Hnb].
    apply andb_true_iff in E as [_ E].
    intros _ E'; rewrite E' in E; discriminate E.
  - (* blur *)
    kept Hinv.
  - (* voice *)
    unfold handleVoiceResult.
    destruct (nonEmpty (trim transcript)) eqn:Eq; kept Hinv.
    apply trim_not_blank; exact Eq.
Qed.

Lemma run_Inv (events : list Event) (st : State) :
  Inv st ->
  exists st' out,
    run toLowerCase st events = Some (st', out)
    /\ Inv st' /\ Forall (fun q => blank q = false) out.
Proof.
  revert st; induction events as [| e rest IH]; intros st Hinv.
  - exists st, []; split; [reflexivity | split; [exact Hinv | constructor]].
  - destruct (step_Inv st e Hinv) as (st1 & out1 & E1 & Hinv1 & Hout1).
    destruct (IH st1 Hinv1) as (st2 & out2 & E2 & Hinv2 & Hout2).
    exists st2, (out1 ++ out2); cbn [run]; rewrite E1, E2.
    split; [reflexivity | split; [exact Hinv2 |]].
    apply Forall_app; split; assumption.
Qed.

(** X12.  Whatever the user does, the selection stays [-1] or the index of a
    suggestion, so [suggestions[selectedSuggestionIndex]] is never
    [undefined] when [Enter] reads it, and the dropdown is never shown
    without suggestions. *)
Theorem selection_always_valid (events : list Event) :
  exists st out,
    run toLowerCase initialState events = Some (st, out)
    /\ (-1 <= selectedSuggestionIndex st
              < Z.of_nat (List.length (suggestions st)))%Z
    /\ (showSuggestions st = true -> suggestions st <> []).
Proof.
  destruct (run_Inv events initialState Inv_initial)
    as (st & out & E & (Hidx & Hshow & _) & _).
  exists st, out; auto.
Qed.

(** X13.  No sequence of events makes the component search for a blank query:
    every string passed to [onSearch] has a character that is not white
    space. *)
Theorem onSearch_never_blank (events : list Event) :
  exists st out,
    run toLowerCase initialState events = Some (st, out)
    /\ Forall (fun q => blank q = false) out.
Proof.
  destruct (run_Inv events initialState Inv_initial) as (st & out & E & _ & Hout).
  exists st, out; auto.
Qed.

End Machine.

(** ** The keyboard *)

Section Keyboard.

Variable toLowerCase : str -> str.

Lemma run_events_app (st st1 st2 : State) (l1 l2 : list Event) (o1 o2 : list str) :
  run toLowerCase st l1 = Some (st1, o1) ->
  run toLowerCase st1 l2 = Some (st2, o2) ->
  run toLowerCase st (l1 ++ l2) = Some (st2, o1 ++ o2).
Proof.
  revert st o1; induction l1 as [| e l1 IH]; intros st o1 H1 H2.
  - injection H1 as <- <-; exact H2.
  - cbn [run app] in *.
    destruct (step toLowerCase st e) as [[sa oa] |]; [| discriminate].
    destruct (run toLowerCase sa l1) as [[sb ob] |] eqn:E; [| discriminate].
    injection H1 as <- <-.
    rewrite (IH sa ob E H2), app_assoc; reflexivity.
Qed.

Lemma state_eta (st : State) : withIndex st (selectedSuggestionIndex st) = st.
Proof. destruct st; reflexivity. Qed.

Lemma run_arrow_down (n : nat) (st : State) :
  showSuggestions st = true ->
  (selectedSuggestionIndex st <= Z.of_nat (List.length (suggestions st)) - 1)%Z ->
  run toLowerCase st (repeat (keydown ArrowDown) n)
  = Some (withIndex st (Z.min (selectedSuggestionIndex st + Z.of_nat n)
                              (Z.of_nat (List.length (suggestions st)) - 1)),
          []).
Proof.
  revert st; induction n as [| n IH]; intros st Hshow Hidx.
  - cbn [repeat run]; rewrite Z.add_0_r, Z.min_l, state_eta by lia; reflexivity.
  - cbn [repeat run]; unfold step, dispatch, handleKeyDown; rewrite Hshow.
    cbn [negb commit fold_left update searches flat_map app].
    fold (withIndex st
            (if (selectedSuggestionIndex st
                 <? Z.of_nat (List.length (suggestions st)) - 1)%Z
             then (selectedSuggestionIndex st + 1)%Z
             else selectedSuggestionIndex st)).
    rewrite IH; cbn [withIndex showSuggestions suggestions selectedSuggestionIndex];
      [| exact Hshow | destruct (_ <? _)%Z eqn:E; [apply Z.ltb_lt in E |]; lia].
    unfold withIndex; cbn [query suggestions showSuggestions selectedSuggestionIndex].
    do 3 f_equal.
    destruct (_ <? _)%Z eqn:E; [apply Z.ltb_lt in E | apply Z.ltb_ge in E]; lia.
Qed.

Lemma run_arrow_up (n : nat) (st : State) :
  showSuggestions st = true -> (-1 <= selectedSuggestionIndex st)%Z ->
  run toLowerCase st (repeat (keydown ArrowUp) n)
  = Some (withIndex st (Z.max (selectedSuggestionIndex st - Z.of_nat n) (-1)),
          []).
Proof.
  revert st; induction n as [| n IH]; intros st Hshow Hidx.
  - cbn [repeat run]; rewrite Z.sub_0_r, Z.max_l, state_eta by lia; reflexivity.
  - cbn [repeat run]; unfold step, dispatch, handleKeyDown; rewrite Hshow.
    cbn [negb commit fold_left update searches flat_map app].
    fold (withIndex st
            (if (selectedSuggestionIndex st >? 0)%Z
             then (selectedSuggestionIndex st - 1)%Z else (-1)%Z)).
    rewrite IH; cbn [withIndex showSuggestions suggestions selectedSuggestionIndex];
      [| exact Hshow | destruct (_ >? _)%Z eqn:E; [apply Z.gtb_lt in E |]; lia].
    unfold withIndex; cbn [query suggestions showSuggestions selectedSuggestionIndex].
    do 3 f_equal.
    destruct (_ >? _)%Z eqn:E; [apply Z.gtb_lt in E |];
      [lia | rewrite Z.gtb_ltb in E; apply Z.ltb_ge in E; lia].
Qed.

(** X14.  With the dropdown shown and the selection at [-1] or on a suggestion,
    [n] presses of ArrowDown move the selection down by [n] and stop at the
    last suggestion, and [n] presses of ArrowUp move it up by [n] and stop
    at [-1], no selection; neither searches nor changes anything else. *)
Theorem arrow_keys_saturate (n : nat) (st : State) :
  showSuggestions st = true ->
  (-1 <= selectedSuggestionIndex st
      <= Z.of_nat (List.length (suggestions st)) - 1)%Z ->
  run toLowerCase st (repeat (keydown ArrowDown) n)
  = Some (withIndex st (Z.min (selectedSuggestionIndex st + Z.of_nat n)
                              (Z.of_nat (List.length (suggestions st)) - 1)),
          [])
  /\ run toLowerCase st (repeat (keydown ArrowUp) n)
     = Some (withIndex st (Z.max (selectedSuggestionIndex st - Z.of_nat n) (-1)),
             []).
Proof.
  intros Hshow Hidx; split; [apply run_arrow_down | apply run_arrow_up];
    solve [assumption | lia].
Qed.

Lemma run_change (value : str) :
  run toLowerCase initialState [change value]
  = Some (typed toLowerCase value, []).
Proof. reflexivity. Qed.

(** X15.  Typing a value and pressing ArrowDown [k + 1] times and then Enter
    searches for the suggestion of index [k], puts it in the input and
    closes the dropdown. *)
Theorem keyboard_selects_suggestion (value s : str) (k : nat) :
  nth_error (generateSuggestions toLowerCase value) k = Some s ->
  exists st,
    run toLowerCase initialState
        (change value :: repeat (keydown ArrowDown) (S k) ++ [keydown Enter])
    = Some (st, [s])
    /\ query st = s /\ showSuggestions st = false
    /\ suggestions st = generateSuggestions toLowerCase value.
Proof.
  intros Hk.
  pose proof (generateSuggestions_blank toLowerCase value) as Hblank.
  assert (Hlen : (k < List.length (generateSuggestions toLowerCase value))%nat)
    by (apply nth_error_Some; rewrite Hk; discriminate).
  assert (Hshow : showSuggestions (typed toLowerCase value) = true).
  { unfold typed; cbn [showSuggestions]; apply andb_true_iff; split.
    - destruct value; [| reflexivity].
      rewrite (Hblank eq_refl) in Hlen; cbn in Hlen; lia.
    - apply Nat.ltb_lt; lia. }
  set (selected := withIndex (typed toLowerCase value) (Z.of_nat k)).
  assert (Hdown : run toLowerCase (typed toLowerCase value)
                      (repeat (keydown ArrowDown) (S k))
                  = Some (selected, [])).
  { rewrite run_arrow_down; [| exact Hshow | cbn; lia].
    unfold selected; cbn [typed selectedSuggestionIndex suggestions].
    repeat f_equal; lia. }
  eexists; split.
  - change (change value :: ?l) with ([change value] ++ l).
    apply (run_events_app _ _ _ _ _ [] [s] (run_change value)).
    apply (run_events_app _ _ _ _ _ [] [s] Hdown).
    subst selected; cbn [run]; unfold step, dispatch, handleKeyDown.
    cbn [withIndex showSuggestions selectedSuggestionIndex suggestions].
    rewrite Hshow; cbn [negb].
    replace (Z.of_nat k >=? 0)%Z with true by (symmetry; apply Z.geb_le; lia).
    cbn [typed suggestions]; rewrite Nat2Z.id, Hk; reflexivity.
  - cbn; auto.
Qed.

(** X16.  Typing a value and submitting the form, or pressing Enter without a
    selection, searches for the trimmed value when the value is not blank,
    and does not search when it is. *)
Theorem typed_search (value : str) :
  let out := if nonEmpty (trim value) then [trim value] else [] in
  exists st1 st2,
    run toLowerCase initialState [change value; submit] = Some (st1, out)
    /\ run toLowerCase initialState [change value; keydown Enter] = Some (st2, out)
    /\ query st1 = value /\ query st2 = value.
Proof.
  cbv zeta.
  pose proof (generateSuggestions_blank toLowerCase value) as Hblank.
  pose proof (generateSuggestions_head toLowerCase value) as Hhead.
  assert (Hsubmit : forall b, nonEmpty (trim value) = b ->
            exists st1,
              run toLowerCase initialState [change value; submit]
              = Some (st1, if b then [trim value] else [])
              /\ query st1 = value).
  { intros b Hb.
    cbn [run step dispatch]; unfold handleSubmit;
      cbn [handleInputChange commit fold_left update query searches flat_map app].
    rewrite Hb; destruct b; eexists; split; reflexivity. }
  assert (Henter : forall b, nonEmpty (trim value) = b ->
            exists st2,
              run toLowerCase initialState [change value; keydown Enter]
              = Some (st2, if b then [trim value] else [])
              /\ query st2 = value).
  { intros b Hb; rewrite nonEmpty_trim in Hb.
    change [change value; keydown Enter] with ([change value] ++ [keydown Enter]).
    destruct (blank value) eqn:Eb; cbn [negb] in Hb; subst b.
    - eexists; split.
      + apply (run_events_app _ _ _ _ _ [] [] (run_change value)).
        cbn [run]; unfold step, dispatch, handleKeyDown, typed; cbn [showSuggestions].
        rewrite (Hblank eq_refl); cbn [List.length Nat.ltb Nat.leb andb negb].
        rewrite andb_false_r; reflexivity.
      + reflexivity.
    - destruct (Hhead eq_refl) as (rest & Hrest).
      eexists; split.
      + apply (run_events_app _ _ _ _ _ [] [trim value] (run_change value)).
        cbn [run]; unfold step, dispatch, handleKeyDown, typed;
          cbn [showSuggestions selectedSuggestionIndex query].
        rewrite Hrest.
        destruct value as [| c t]; [discriminate Eb |].
        cbn [List.length Nat.ltb Nat.leb andb negb Z.geb Z.compare].
        rewrite nonEmpty_trim, Eb; reflexivity.
      + reflexivity. }
  destruct (Hsubmit _ eq_refl) as (st1 & E1 & Q1).
  destruct (Henter _ eq_refl) as (st2 & E2 & Q2).
  exists st1, st2; auto.
Qed.

End Keyboard.

End SearchBarProperties.

(** * The further theorems at concrete inputs *)

Lemma onSeek_within_duration_witness :
  Forall (within 0 200)
    (snd (run initialState
            (map (measuredInput exampleProps exampleRect)
               [mousedown (Fin 50); mousemove false (Fin 150); mouseup]))).
Proof.
  apply (onSeek_within_duration 200); [lra |].
  repeat constructor; cbn; try (exists 0, 100; repeat split; lra);
    eexists; reflexivity.
Defined.

Lemma seek_time_monotone_witness :
  exists t1 t2,
    handleSeek exampleProps (Some exampleRect) (Fin 25) = [onSeek (Fin t1)]
    /\ handleSeek exampleProps (Some exampleRect) (Fin 50) = [onSeek (Fin t2)]
    /\ t1 <= t2.
Proof.
  destruct (seek_time_monotone exampleProps 0 100 200 25 50)
    as (t1 & t2 & H1 & H2 & Hle & _); [lra | lra | reflexivity | lra |].
  exists t1, t2; auto.
Defined.

Lemma colour_zones_witness :
  isPlayed (barFillStyle exampleProps initialState 4 0) = true.
Proof.
  destruct (colour_zones 50 200 (-1) initialState 4 0 1) as (_ & _ & H);
    [reflexivity | lia | lia |].
  apply H; lra.
Defined.

Lemma bar_rectangle_witness :
  exists h, barH (barFillRect (Fin 300) 150 (Fin 0.5) 0) = Fin h /\ 3.5 <= h <= 35.
Proof.
  destruct (bar_rectangle 300 0.5 150 0)
    as (x & y & bw & h & _ & _ & _ & Hh & _ & Hr & _); [lra | lra | lia |].
  exists h; auto.
Defined.

(** A draw with one bar, 50 seconds into a 200 second track, while the
    pointer hovers at 100 seconds over a container 300 pixels wide: the
    tooltip is rendered and the hover line is drawn at pixel 150. *)
Lemma overlays_in_range_witness :
  let hovered := {| isDragging := false; isHovering := true;
                    hoverTime := Fin 100; previewTime := Fin 100 |} in
  tooltip exampleProps hovered
  = Some ((Fin 100 / Fin 200 * Fin 100)%js, formatTime (Fin 100))
  /\ exists ph hl,
       drawOverlays exampleProps hovered true
         (Some {| left := Fin 0; width := Fin 300 |}) true [Fin 0.5]
       = Some (ph, hl)
       /\ (exists head x, ph = Some head /\ playheadX head = Fin x
                          /\ 0 <= x <= 300)
       /\ exists t, Fin 100 = Fin t /\ hl = Some (Fin (t / 200 * 300)).
Proof.
  cbv zeta.
  assert (Htip : tooltip exampleProps
                   {| isDragging := false; isHovering := true;
                      hoverTime := Fin 100; previewTime := Fin 100 |}
                 = Some ((Fin 100 / Fin 200 * Fin 100)%js, formatTime (Fin 100))).
  { unfold tooltip, ge, gt, le, lt;
      cbn [isHovering isDragging previewTime exampleProps duration negb andb].
    rewrite Rleb_true, Rltb_true by lra; reflexivity. }
  split; [exact Htip |].
  destruct (overlays_in_range 50 200 300 0
              {| isDragging := false; isHovering := true;
                 hoverTime := Fin 100; previewTime := Fin 100 |}
              true true [Fin 0.5])
    as (_ & _ & H & _).
  - lra.
  - lra.
  - intros _; split; [cbn; discriminate |].
    exists 100; split; [reflexivity | lra].
  - destruct H as (ph & hl & E & Hhead & _ & _ & Hsame);
      [reflexivity | reflexivity | discriminate |].
    exists ph, hl; split; [exact E |].
    split; [apply Hhead; lra |].
    apply (Hsame _ _ Htip).
Defined.

Lemma leave_hides_preview_witness :
  previewTime
    (fst (run {| isDragging := false; isHovering := true;
                 hoverTime := Fin 100; previewTime := Fin 100 |}
              (map (measuredInput exampleProps exampleRect)
                 [mouseleave; mouseenter])))
  = Fin (-1).
Proof.
  destruct (leave_hides_preview
              {| isDragging := false; isHovering := true;
                 hoverTime := Fin 100; previewTime := Fin 100 |}
              (measuredInput exampleProps exampleRect mouseleave)
              [measuredInput exampleProps exampleRect mouseenter])
    as [H _]; [reflexivity | reflexivity | exact H].
Defined.

Lemma formatTime_minutes_seconds_witness :
  exists m r : Z,
    formatTime (Fin 125.4)
    = Some (Z_toString m ++ ":" ++ padStart 2 "0" (Z_toString r))%string
    /\ (0 <= r <= 59)%Z.
Proof.
  destruct (formatTime_minutes_seconds 125.4) as (m & r & H & _ & Hr & _).
  - lra.
  - apply (Rlt_le_trans _ 126); [lra |].
    apply IZR_le; vm_compute; discriminate.
  - exists m, r; auto.
Defined.

Lemma plain_input_suggestions_witness :
  SearchBar.generateSuggestions SearchBar.asciiToLowerCase (SearchBar.lit "arijit")
  = SearchBar.lit "arijit"
    :: map (fun keyword =>
              SearchBar.lit "arijit" ++ SearchBar.lit " " ++ keyword)
           (firstn 7 SearchBar.musicKeywords).
Proof.
  apply SearchBarProperties.plain_input_suggestions;
    vm_compute; reflexivity.
Defined.

Lemma arrow_keys_saturate_witness :
  let st := SearchBar.typed SearchBar.asciiToLowerCase (SearchBar.lit "arijit") in
  SearchBar.run SearchBar.asciiToLowerCase st
    (repeat (SearchBar.keydown SearchBar.ArrowUp) 3)
  = Some (SearchBar.withIndex st
            (Z.max (SearchBar.selectedSuggestionIndex st - Z.of_nat 3) (-1)),
          []).
Proof.
  cbv zeta.
  destruct (SearchBarProperties.arrow_keys_saturate SearchBar.asciiToLowerCase 3
              (SearchBar.typed SearchBar.asciiToLowerCase (SearchBar.lit "arijit")))
    as [_ H]; [vm_compute; reflexivity | vm_compute; split; discriminate | exact H].
Defined.

Lemma keyboard_selects_suggestion_witness :
  exists st,
    SearchBar.run SearchBar.asciiToLowerCase SearchBar.initialState
      (SearchBar.change (SearchBar.lit "arijit")
       :: repeat (SearchBar.keydown SearchBar.ArrowDown) 2
          ++ [SearchBar.keydown SearchBar.Enter])
    = Some (st, [SearchBar.lit "arijit songs"]).
Proof.
  destruct (SearchBarProperties.keyboard_selects_suggestion
              SearchBar.asciiToLowerCase (SearchBar.lit "arijit")
              (SearchBar.lit "arijit songs") 1)
    as (st & H & _); [vm_compute; reflexivity |].
  exists st; exact H.
Defined.
